(** * The iden3 key store: encryption at rest, storage, unlock cache, signing

    A shallow embedding of [keystore/keystore.go].  Go values are modelled as
    follows.

    - [[]byte] is [list byte]; a fixed array [[n]byte] is a [list byte] whose
      length is [n] by construction ([zero n], the results of [array_copy]).
    - A Go function returning [(T, error)] returns a [result T]; a function
      returning only [error] returns an [option error] ([None] is [nil]).
      A function that may also panic returns an [outcome].
    - [map[hex32]EncryptedData] and the cache are stdpp [gmap]s.  The cache
      holds pointers ([*babyjub.PrivKey]), so its values are locations of a
      heap of 32-byte cells and aliasing is visible.
    - [crypto/rand.Reader], the file system and the storage are explicit
      states that are passed through the calls.
    - Packages that are not part of [keystore.go] (scrypt, secretbox,
      babyjub, mimc7, encoding/json) are parameters, bundled in type classes.
    - The reader-writer mutex [ks.rw] only serialises the methods; in this
      sequential model every method runs alone, so it is left out. *)

From Stdlib Require Import ZArith Lia List.
From Stdlib Require Import Strings.Byte.
From stdpp Require Import base option list gmap strings.

Open Scope Z_scope.

(** ** Bytes *)

Abbreviation bytes := (list byte).

#[global] Instance byte_eq_dec : EqDecision byte := Byte.byte_eq_dec.

#[global] Instance byte_countable : Countable byte :=
  inj_countable Byte.to_N Byte.of_N Byte.of_to_N.

(** [[n]byte{}]: the zero value of an array of [n] bytes. *)
Definition zero (n : nat) : bytes := replicate n x00.

(** Go's builtin [copy(dst, src)]: the first [min (len dst) (len src)]
    bytes of [dst] are overwritten with those of [src]; the length of [dst]
    does not change. *)
Definition array_copy (dst src : bytes) : bytes :=
  take (length dst `min` length src) src ++ drop (length dst `min` length src) dst.

(** The slice expression [l[lo:hi]] for [lo <= hi <= len l]. *)
Definition slice (l : bytes) (lo hi : nat) : bytes := take (hi - lo) (drop lo l).

(** The slice expression [l[lo:]]. *)
Definition slice_from (l : bytes) (lo : nat) : bytes := drop lo l.

(** ** Errors and results *)

(** The [error] values that reach the key store.  [ErrNotExist] stands for
    the [*os.PathError] with [ENOENT], the one [os.IsNotExist] recognises;
    [Errorf] is [fmt.Errorf]; [ErrExternal pkg msg] is an error made by
    another package. *)
Inductive error : Type :=
| Errorf (msg : string)
| ErrNotExist (path : string)
| ErrExternal (pkg msg : string).

Inductive result (A : Type) : Type :=
| Ok (a : A)
| Err (e : error).
Arguments Ok {A} a.
Arguments Err {A} e.

Inductive outcome (A : Type) : Type :=
| Return (a : A)
| Panic (msg : string).
Arguments Return {A} a.
Arguments Panic {A} msg.

(** [os.IsNotExist(err)]; it is [false] on [nil]. *)
Definition os_IsNotExist (err : option error) : bool :=
  match err with
  | Some (ErrNotExist _) => true
  | _ => false
  end.

(** ** Constants and parameters *)

Definition StandardScryptN : Z := Z.shiftl 1 18.
Definition StandardScryptP : Z := 1.
Definition LightScryptN : Z := Z.shiftl 1 12.
Definition LightScryptP : Z := 6.
Definition scryptR : Z := 8.
Definition scryptDKLen : Z := 32.

Record KeyStoreParams : Type := {
  ScryptN : Z;
  ScryptP : Z
}.

Definition LightKeyStoreParams : KeyStoreParams :=
  {| ScryptN := LightScryptN; ScryptP := LightScryptP |}.

Definition StandardKeyStoreParams : KeyStoreParams :=
  {| ScryptN := StandardScryptN; ScryptP := StandardScryptP |}.

(** [EncryptedData]: the key derivation parameters and the encrypted data.
    The Go fields [ScryptN], [ScryptP] and [EncryptedData] carry the prefix
    [enc] here, as Rocq has one name space for the fields of all records. *)
Record EncryptedData : Type := {
  Salt : bytes;
  encScryptN : Z;
  encScryptP : Z;
  Nonce : bytes;
  encEncryptedData : bytes
}.

(** ** The entropy source

    [crypto/rand.Reader] is a state: the bytes it will still deliver.
    [io.ReadFull] of [n] bytes fails when fewer are left. *)
Definition RandReader : Type := bytes.

Definition io_ReadFull (rnd : RandReader) (n : nat) : option (bytes * RandReader) :=
  if decide (n ≤ length rnd)%nat then Some (take n rnd, drop n rnd) else None.

(** ** External packages *)

(** [golang.org/x/crypto]: [scrypt.Key(password, salt, N, r, p, keyLen)],
    [secretbox.Seal(out, message, nonce, key)] and
    [secretbox.Open(out, box, nonce, key)], whose [(nil, false)] is [None]. *)
Class XCrypto : Type := {
  scrypt_Key : bytes → bytes → Z → Z → Z → Z → result bytes;
  secretbox_Seal : bytes → bytes → bytes → bytes → bytes;
  secretbox_Open : bytes → bytes → bytes → bytes → option bytes
}.

(** ** Encryption at rest *)

Section Encryption.
Context {xcrypto : XCrypto}.

Definition EncryptData (data pass : bytes) (scryptN scryptP : Z) (rnd : RandReader)
  : outcome (result EncryptedData) * RandReader :=
  match io_ReadFull rnd 32 with
  | None => (Panic "reading from crypto/rand failed", rnd)
  | Some (salt, rnd1) =>
    match scrypt_Key pass salt scryptN scryptR scryptP scryptDKLen with
    | Err e => (Return (Err e), rnd1)
    | Ok derivedKey =>
      let key := array_copy (zero 32) derivedKey in
      match io_ReadFull rnd1 24 with
      | None => (Panic "reading from crypto/rand failed", rnd1)
      | Some (nonce, rnd2) =>
        let encryptedData := secretbox_Seal [] data nonce key in
        (Return (Ok {| Salt := salt;
                       encScryptN := scryptN;
                       encScryptP := scryptP;
                       Nonce := nonce;
                       encEncryptedData := encryptedData |}), rnd2)
      end
    end
  end.

Definition DecryptData (encData : EncryptedData) (pass : bytes) : result bytes :=
  match scrypt_Key pass (Salt encData) (encScryptN encData) scryptR
                   (encScryptP encData) scryptDKLen with
  | Err e => Err e
  | Ok derivedKey =>
    let key := array_copy (zero 32) derivedKey in
    let nonce := array_copy (zero 24) (Nonce encData) in
    match secretbox_Open [] (encEncryptedData encData) nonce key with
    | None => Err (Errorf "Invalid encrypted data")
    | Some data => Ok data
    end
  end.
End Encryption.

(** ** Storage

    The [Storage] interface.  A realization has a state of type [S]; every
    method returns its result and the next state. *)
Class Storage (S : Type) : Type := {
  Read : S → result bytes * S;
  Write : bytes → S → option error * S;
  Lock : S → option error * S;
  Unlock : S → option error * S
}.

(** *** The file system under [FileStorage]

    [files] maps a path to the content of the file there.  [space] is the
    fault model of the device: the number of bytes it still accepts before
    [write(2)] reports an error ([None]: no limit). *)
Record FileSystem : Type := {
  files : gmap string bytes;
  space : option nat
}.

(** [ioutil.ReadFile]: the content, or the not-exist error of [os.Open]. *)
Definition ioutil_ReadFile (path : string) (fsys : FileSystem) : result bytes :=
  match files fsys !! path with
  | Some content => Ok content
  | None => Err (ErrNotExist path)
  end.

(** [ioutil.WriteFile(path, data, 0600)]: [os.OpenFile] with
    [O_WRONLY|O_CREATE|O_TRUNC] empties (or creates) the file, then
    [f.Write(data)] writes into it; when the device takes only [k] bytes,
    those stay in the file and the short write is the error. *)
Definition ioutil_WriteFile (path : string) (data : bytes) (fsys : FileSystem)
  : option error * FileSystem :=
  let truncated := <[path := []]> (files fsys) in
  match space fsys with
  | None => (None, {| files := <[path := data]> truncated; space := None |})
  | Some k =>
    if decide (length data ≤ k)%nat
    then (None, {| files := <[path := data]> truncated;
                   space := Some (k - length data)%nat |})
    else (Some (ErrExternal "io" "short write"),
          {| files := <[path := take k data]> truncated; space := Some 0%nat |})
  end.

(** [os.Remove]. *)
Definition os_Remove (path : string) (fsys : FileSystem) : option error * FileSystem :=
  match files fsys !! path with
  | Some _ => (None, {| files := delete path (files fsys); space := space fsys |})
  | None => (Some (ErrNotExist path), fsys)
  end.

(** [FileStorage]: the data path, the [flock.Flock] on [path + ".lock"]
    (whether this handle holds it) and the file system it lives in.  Other
    holders of the advisory lock, on which [flock.Lock] would block, are
    outside this sequential model. *)
Record FileStorage : Type := {
  path : string;
  lock : bool;
  fsys : FileSystem
}.

Definition NewFileStorage (p : string) (fs : FileSystem) : FileStorage :=
  {| path := p; lock := false; fsys := fs |}.

Definition lock_path (fs : FileStorage) : string := path fs +:+ ".lock".

Definition FileStorage_Read (fs : FileStorage) : result bytes * FileStorage :=
  (ioutil_ReadFile (path fs) (fsys fs), fs).

Definition FileStorage_Write (data : bytes) (fs : FileStorage) : option error * FileStorage :=
  let '(err, fsys') := ioutil_WriteFile (path fs) data (fsys fs) in
  (err, {| path := path fs; lock := lock fs; fsys := fsys' |}).

(** [flock.Lock] opens the lock file with [O_CREATE|O_RDONLY] and takes the
    advisory lock on it. *)
Definition FileStorage_Lock (fs : FileStorage) : option error * FileStorage :=
  let created :=
    match files (fsys fs) !! lock_path fs with
    | Some _ => files (fsys fs)
    | None => <[lock_path fs := []]> (files (fsys fs))
    end in
  (None, {| path := path fs; lock := true;
            fsys := {| files := created; space := space (fsys fs) |} |}).

(** [flock.Unlock] releases the advisory lock and returns [nil]; then the
    lock file is removed. *)
Definition FileStorage_Unlock (fs : FileStorage) : option error * FileStorage :=
  let '(err, fsys') := os_Remove (lock_path fs) (fsys fs) in
  (err, {| path := path fs; lock := false; fsys := fsys' |}).

#[global] Instance FileStorage_Storage : Storage FileStorage :=
  {| Read := FileStorage_Read;
     Write := FileStorage_Write;
     Lock := FileStorage_Lock;
     Unlock := FileStorage_Unlock |}.

(** [MemStorage]: a storage backed by a slice. *)
Definition MemStorage : Type := bytes.

Definition MemStorage_Read (ms : MemStorage) : result bytes * MemStorage := (Ok ms, ms).
Definition MemStorage_Write (data : bytes) (ms : MemStorage) : option error * MemStorage :=
  (None, data).
Definition MemStorage_Lock (ms : MemStorage) : option error * MemStorage := (None, ms).
Definition MemStorage_Unlock (ms : MemStorage) : option error * MemStorage := (None, ms).

#[global] Instance MemStorage_Storage : Storage MemStorage :=
  {| Read := MemStorage_Read;
     Write := MemStorage_Write;
     Lock := MemStorage_Lock;
     Unlock := MemStorage_Unlock |}.

(** ** The packages of the repository that [keystore.go] imports

    [crypto/babyjub] and [crypto/mimc7].  A [PrivKey] is a [[32]byte], a
    [PubKey] is a [Point], an [RElem] is a [*big.Int]; [mimc7.Hash] takes
    the elements and an optional key ([nil] here). *)
Class Iden3Crypto : Type := {
  Point : Type;
  Signature : Type;
  PrivKey_Pub : bytes → Point;
  Point_Compress : Point → bytes;
  Point_Decompress : bytes → result Point;
  Signature_Compress : Signature → bytes;
  Signature_Decompress : bytes → result Signature;
  PrivKey_SignMimc7 : bytes → Z → Signature;
  PubKey_VerifyMimc7 : Point → Z → Signature → bool;
  mimc7_Hash : list Z → option Z → Z
}.

(** Modelled from the spec: [babyjub.SetBigIntFromLEBytes] is not among the
    sources; by its name and by "interpret each chunk as an unsigned
    little-endian integer" it reads its bytes least significant first. *)
Definition SetBigIntFromLEBytes (leBuf : bytes) : Z :=
  foldr (λ b acc, Z.of_N (Byte.to_N b) + 256 * acc) 0 leBuf.

(** [encoding/json] on [KeysStored]. *)
Class Json : Type := {
  json_Marshal : gmap bytes EncryptedData → result bytes;
  json_Unmarshal : bytes → result (gmap bytes EncryptedData)
}.

(** ** The key store *)

(** A heap of [babyjub.PrivKey] cells; the cache holds pointers into it. *)
Definition loc : Type := positive.
Abbreviation Heap := (gmap loc bytes).

Record KeyStore (S : Type) : Type := {
  storage : S;
  params : KeyStoreParams;
  encryptedKeys : gmap bytes EncryptedData;
  cache : gmap bytes loc
}.
Arguments storage {S} _.
Arguments params {S} _.
Arguments encryptedKeys {S} _.
Arguments cache {S} _.

Definition set_encryptedKeys {S} (ks : KeyStore S) (m : gmap bytes EncryptedData) : KeyStore S :=
  {| storage := storage ks; params := params ks; encryptedKeys := m; cache := cache ks |}.

Definition set_storage {S} (ks : KeyStore S) (st : S) : KeyStore S :=
  {| storage := st; params := params ks; encryptedKeys := encryptedKeys ks; cache := cache ks |}.

Definition set_cache {S} (ks : KeyStore S) (c : gmap bytes loc) : KeyStore S :=
  {| storage := storage ks; params := params ks; encryptedKeys := encryptedKeys ks; cache := c |}.

Section KeyStore.
Context {xcrypto : XCrypto} {iden3 : Iden3Crypto} {json : Json}.
Context {S : Type} {stg : Storage S}.

(** [NewKeyStore]: the result and the state the storage is left in. *)
Definition NewKeyStore (st : S) (prm : KeyStoreParams) : result (KeyStore S) * S :=
  match Lock st with
  | (Some err, st1) => (Err err, st1)
  | (None, st1) =>
    let '(r, st2) := Read st1 in
    match (match r with
           | Ok encryptedKeysJSON => Ok encryptedKeysJSON
           | Err err => if os_IsNotExist (Some err) then Ok [] else Err err
           end) with
    | Err err => (Err err, (Unlock st2).2)
    | Ok encryptedKeysJSON =>
      match (if decide (length encryptedKeysJSON = 0)%nat
             then Ok ∅
             else json_Unmarshal encryptedKeysJSON) with
      | Err err => (Err err, (Unlock st2).2)
      | Ok encryptedKeys =>
        (Ok {| storage := st2; params := prm;
               encryptedKeys := encryptedKeys; cache := ∅ |}, st2)
      end
    end
  end.

(** The function given to [runtime.SetFinalizer]: it clears the secret keys
    of the cache in place and unlocks the storage (the error of [Unlock] is
    dropped). *)
Definition finalizer (ks : KeyStore S) (h : Heap) : S * Heap :=
  let zero := zero 32 in
  let h' := foldr (λ sk h, alter (λ cell, array_copy cell zero) sk h) h
                  (map_to_list (cache ks)).*2 in
  ((Unlock (storage ks)).2, h').

(** [Keys]; Go leaves the order of a map's keys open. *)
Definition Keys (ks : KeyStore S) : list bytes :=
  (map_to_list (encryptedKeys ks)).*1.

Definition ImportKey (ks : KeyStore S) (sk pass : bytes) (rnd : RandReader)
  : outcome (result bytes) * KeyStore S * RandReader :=
  match EncryptData sk pass (ScryptN (params ks)) (ScryptP (params ks)) rnd with
  | (Panic msg, rnd') => (Panic msg, ks, rnd')
  | (Return (Err e), rnd') => (Return (Err e), ks, rnd')
  | (Return (Ok encryptedKey), rnd') =>
    let pk := PrivKey_Pub sk in
    let pubCompressed := Point_Compress pk in
    let ks1 := set_encryptedKeys ks (<[pubCompressed := encryptedKey]> (encryptedKeys ks)) in
    match json_Marshal (encryptedKeys ks1) with
    | Err e => (Return (Err e), ks1, rnd')
    | Ok encryptedKeysJSON =>
      match Write encryptedKeysJSON (storage ks1) with
      | (Some e, st') => (Return (Err e), set_storage ks1 st', rnd')
      | (None, st') => (Return (Ok pubCompressed), set_storage ks1 st', rnd')
      end
    end
  end.

(** [UnlockKey]: [var sk babyjub.PrivKey] escapes through [&sk], so it is a
    fresh cell of the heap. *)
Definition UnlockKey (ks : KeyStore S) (pk pass : bytes) (h : Heap)
  : option error * KeyStore S * Heap :=
  match encryptedKeys ks !! pk with
  | None => (Some (Errorf "Public key not found in the key store"), ks, h)
  | Some encryptedKey =>
    match DecryptData encryptedKey pass with
    | Err e => (Some e, ks, h)
    | Ok skBuf =>
      let sk := fresh (dom h) in
      (None, set_cache ks (<[pk := sk]> (cache ks)),
       <[sk := array_copy (zero 32) skBuf]> h)
    end
  end.

(** [ExportKey] returns the cached pointer ([None] is [nil]). *)
Definition ExportKey (ks : KeyStore S) (pk pass : bytes) (h : Heap)
  : result (option loc) * KeyStore S * Heap :=
  match UnlockKey ks pk pass h with
  | (Some e, ks', h') => (Err e, ks', h')
  | (None, ks', h') => (Ok (cache ks' !! pk), ks', h')
  end.

Definition SignElem (ks : KeyStore S) (pk : bytes) (msg : Z) (h : Heap)
  : outcome (result bytes) :=
  match cache ks !! pk with
  | None => Return (Err (Errorf "Public key not found in the cache.  Is it unlocked?"))
  | Some sk =>
    match h !! sk with
    | None => Panic "invalid memory address or nil pointer dereference"
    | Some cell => Return (Ok (Signature_Compress (PrivKey_SignMimc7 cell msg)))
    end
  end.

(** The elements [mimc7HashBytes] hands to [mimc7.Hash]. *)
Definition mimc7HashBytes_msgElems (msg : bytes) : list Z :=
  let n := 31%nat in
  let msgElems :=
    foldl (λ msgElems i,
             msgElems ++ [SetBigIntFromLEBytes (slice msg (n * i) (n * (i + 1)))])
          [] (seq 0 (length msg / n)) in
  if decide (length msg `mod` n ≠ 0)%nat
  then msgElems ++ [SetBigIntFromLEBytes (slice_from msg (length msg / n))]
  else msgElems.

Definition mimc7HashBytes (msg : bytes) : Z :=
  mimc7_Hash (mimc7HashBytes_msgElems msg) None.

Definition Sign (ks : KeyStore S) (pk msg : bytes) (h : Heap) : outcome (result bytes) :=
  SignElem ks pk (mimc7HashBytes msg) h.

Definition VerifySignatureElem (pkComp : bytes) (msg : Z) (sigComp : bytes)
  : bool * option error :=
  match Point_Decompress pkComp with
  | Err e => (false, Some e)
  | Ok pkPoint =>
    match Signature_Decompress sigComp with
    | Err e => (false, Some e)
    | Ok sig => (PubKey_VerifyMimc7 pkPoint msg sig, None)
    end
  end.

Definition VerifySignature (pkComp msg sigComp : bytes) : bool * option error :=
  VerifySignatureElem pkComp (mimc7HashBytes msg) sigComp.
End KeyStore.

(** ** The chunking that the comment on [mimc7HashBytes] describes

    "hashes a msg byte slice by blocks of 31 bytes encoded as little-endian":
    block [i] is [msg[31*i : min(31*(i+1), len msg)]]. *)
Definition blocks31 (msg : bytes) : list bytes :=
  map (λ i, slice msg (31 * i) ((31 * (i + 1)) `min` length msg))
      (seq 0 ((length msg + 30) / 31)).

Definition documented_msgElems (msg : bytes) : list Z :=
  map SetBigIntFromLEBytes (blocks31 msg).

(** ** Flipping a bit

    Bit [i mod 8] of byte [i / 8] of a byte string. *)
Definition flip_byte (k : nat) (b : byte) : byte :=
  default b (Byte.of_N (N.lxor (Byte.to_N b) (N.shiftl 1 (N.of_nat (k `mod` 8))))).

Definition flip_bit (i : nat) (l : bytes) : bytes :=
  alter (flip_byte (i `mod` 8)) (i / 8)%nat l.

Definition flip_ciphertext (i : nat) (r : EncryptedData) : EncryptedData :=
  {| Salt := Salt r; encScryptN := encScryptN r; encScryptP := encScryptP r;
     Nonce := Nonce r; encEncryptedData := flip_bit i (encEncryptedData r) |}.

Definition flip_nonce (i : nat) (r : EncryptedData) : EncryptedData :=
  {| Salt := Salt r; encScryptN := encScryptN r; encScryptP := encScryptP r;
     Nonce := flip_bit i (Nonce r); encEncryptedData := encEncryptedData r |}.

(** ** A small executable instance of the external packages

    It stands in for scrypt, secretbox, babyjub, mimc7 and encoding/json
    where the model is run on concrete inputs.  The box of [toy_Seal]
    carries the key and the nonce as its tag and the message twice, so that
    [toy_Open] rejects every other key, every other nonce and every flipped
    bit. *)
Definition toy_scrypt_Key (pass salt : bytes) (N r p keyLen : Z) : result bytes :=
  if decide (N ≤ 1)
  then Err (ErrExternal "scrypt" "N must be > 1 and a power of 2")
  else Ok (take (Z.to_nat keyLen) (pass ++ salt ++ zero (Z.to_nat keyLen))).

Definition toy_Seal (out message nonce key : bytes) : bytes :=
  out ++ key ++ nonce ++ message ++ message.

Definition toy_Open (out box nonce key : bytes) : option bytes :=
  let body := drop (length key + length nonce) box in
  let message := take (length body / 2) body in
  if decide (box = key ++ nonce ++ message ++ message)
  then Some (out ++ message)
  else None.

Definition toy_XCrypto : XCrypto :=
  {| scrypt_Key := toy_scrypt_Key;
     secretbox_Seal := toy_Seal;
     secretbox_Open := toy_Open |}.

Definition toy_Decompress (n : nat) (b : bytes) : result bytes :=
  if decide (length b = n)
  then Ok b
  else Err (ErrExternal "babyjub" "invalid compressed encoding").

Definition toy_Sign (sk : bytes) (msg : Z) : bytes :=
  reverse sk ++ replicate 32 (default x00 (Byte.of_N (Z.to_N (msg `mod` 256)))).

Definition toy_Iden3Crypto : Iden3Crypto :=
  {| Point := bytes;
     Signature := bytes;
     PrivKey_Pub sk := reverse sk;
     Point_Compress p := p;
     Point_Decompress := toy_Decompress 32;
     Signature_Compress sig := sig;
     Signature_Decompress := toy_Decompress 64;
     PrivKey_SignMimc7 := toy_Sign;
     PubKey_VerifyMimc7 pk msg sig := bool_decide (sig = toy_Sign (reverse pk) msg);
     mimc7_Hash elems key := foldr Z.add (default 0 key) elems |}.

(** The toy encoding of [KeysStored] lists the public keys between braces;
    the toy decoder accepts exactly the empty document. *)
Definition toy_Json : Json :=
  {| json_Marshal m := Ok ("{"%byte :: concat (map_to_list m).*1 ++ ["}"%byte]);
     json_Unmarshal b :=
       if decide (b = ["{"%byte; "}"%byte])
       then Ok ∅
       else Err (ErrExternal "json" "invalid character") |}.

(** Concrete inputs. *)
Definition bytes_of_nats (l : list nat) : bytes :=
  map (λ n, default x00 (Byte.of_nat n)) l.

(** The 32 bytes [0x00, 0x01, ..., 0x1f]. *)
Definition msg32 : bytes := bytes_of_nats (seq 0 32).

(** A secret key, two passphrases and 56 bytes of entropy (a salt and a
    nonce). *)
Definition secret32 : bytes := bytes_of_nats (seq 1 32).
Definition pass_abc : bytes := ["a"%byte; "b"%byte; "c"%byte].
Definition pass_abd : bytes := ["a"%byte; "b"%byte; "d"%byte].
Definition rnd56 : RandReader := bytes_of_nats (seq 100 56).

(** The record that the toy [EncryptData] makes of [secret32] under "abc"
    with the light parameters and the entropy [rnd56]. *)
Definition toy_record : EncryptedData :=
  {| Salt := bytes_of_nats (seq 100 32);
     encScryptN := LightScryptN;
     encScryptP := LightScryptP;
     Nonce := bytes_of_nats (seq 132 24);
     encEncryptedData :=
       toy_Seal [] secret32 (bytes_of_nats (seq 132 24))
                (take 32 (pass_abc ++ bytes_of_nats (seq 100 32))) |}.

(** ** Wrong inputs to [DecryptData]

    [tampered rec P rec' P']: [rec'] and [P'] are the record [rec] and its
    passphrase [P] with one of the changes that decryption must detect: a
    different passphrase, from which scrypt derives a different key, or one
    flipped bit in the ciphertext, or one flipped bit in the nonce. *)
Inductive tampered {xcrypto : XCrypto} (rec : EncryptedData) (P : bytes)
  : EncryptedData → bytes → Prop :=
| wrong_passphrase (P' derivedKey derivedKey' : bytes) :
    P' ≠ P →
    scrypt_Key P (Salt rec) (encScryptN rec) scryptR (encScryptP rec) scryptDKLen
      = Ok derivedKey →
    scrypt_Key P' (Salt rec) (encScryptN rec) scryptR (encScryptP rec) scryptDKLen
      = Ok derivedKey' →
    array_copy (zero 32) derivedKey' ≠ array_copy (zero 32) derivedKey →
    tampered rec P rec P'
| flipped_ciphertext (i : nat) :
    (i < 8 * length (encEncryptedData rec))%nat →
    tampered rec P (flip_ciphertext i rec) P
| flipped_nonce (i : nat) :
    (i < 8 * length (Nonce rec))%nat →
    tampered rec P (flip_nonce i rec) P.

(** ** The cells of the cache

    Every pointer of the cache points to a [babyjub.PrivKey], an array of
    32 bytes. *)
Definition cache_typed {S} (ks : KeyStore S) (h : Heap) : Prop :=
  ∀ pk sk, cache ks !! pk = Some sk →
    ∃ cell, h !! sk = Some cell ∧ length cell = 32%nat.

(** ** Concrete stores *)

(** The record that the toy [EncryptData] makes of a 3-byte plaintext, and
    the one it makes of a 40-byte plaintext. *)
Definition toy_record_of (data : bytes) : EncryptedData :=
  {| Salt := bytes_of_nats (seq 100 32);
     encScryptN := LightScryptN;
     encScryptP := LightScryptP;
     Nonce := bytes_of_nats (seq 132 24);
     encEncryptedData :=
       toy_Seal [] data (bytes_of_nats (seq 132 24))
                (take 32 (pass_abc ++ bytes_of_nats (seq 100 32))) |}.

Definition short3 : bytes := [x01; x02; x03].
Definition long40 : bytes := bytes_of_nats (seq 1 40).

Definition pk_A : bytes := bytes_of_nats (seq 200 32).
Definition pk_B : bytes := bytes_of_nats (seq 201 32).

(** A store in memory that holds a 3-byte and a 40-byte plaintext. *)
Definition ks_odd : KeyStore MemStorage :=
  {| storage := [];
     params := LightKeyStoreParams;
     encryptedKeys := {[ pk_A := toy_record_of short3;
                         pk_B := toy_record_of long40 ]};
     cache := ∅ |}.

(** A file-backed store that is open (its lock is held and the lock file
    exists) with two unlocked keys in the cache. *)
Definition fs_open : FileStorage :=
  {| path := "ks.json"; lock := true;
     fsys := {| files := {[ "ks.json" := []; "ks.json.lock" := [] ]};
                space := None |} |}.

Definition ks_unlocked : KeyStore FileStorage :=
  {| storage := fs_open;
     params := LightKeyStoreParams;
     encryptedKeys := {[ pk_A := toy_record; pk_B := toy_record ]};
     cache := {[ pk_A := 1%positive; pk_B := 2%positive ]} |}.

(** Its heap: the two cached keys and one cell that is not in the cache. *)
Definition heap_unlocked : Heap :=
  {[ 1%positive := secret32;
     2%positive := bytes_of_nats (seq 33 32);
     3%positive := bytes_of_nats (seq 65 32) ]}.

(** A storage whose lock cannot be taken: [Lock] reports an error. *)
Definition BusyStorage : Type := bytes.

Definition BusyStorage_Storage : Storage BusyStorage :=
  {| Read ms := (Ok ms, ms);
     Write data ms := (None, data);
     Lock ms := (Some (ErrExternal "flock" "resource temporarily unavailable"), ms);
     Unlock ms := (None, ms) |}.

(** File systems: an empty one, one whose key-store file is not a JSON
    document, and one with an old key-store file on a device that accepts
    two more bytes. *)
Definition fsys_empty : FileSystem := {| files := ∅; space := None |}.

Definition fsys_garbage : FileSystem :=
  {| files := {[ "ks.json" := ["x"%byte] ]}; space := None |}.

Definition old_content : bytes := [x01; x02; x03].
Definition new_content : bytes := [x04; x05; x06; x07].

Definition fsys_nearly_full : FileSystem :=
  {| files := {[ "ks.json" := old_content ]}; space := Some 2%nat |}.

(** The empty store in memory, and the empty store over a file on the
    nearly full device. *)
Definition ks_mem : KeyStore MemStorage :=
  {| storage := []; params := LightKeyStoreParams; encryptedKeys := ∅; cache := ∅ |}.

Definition ks_nearly_full : KeyStore FileStorage :=
  {| storage := {| path := "ks.json"; lock := true; fsys := fsys_nearly_full |};
     params := LightKeyStoreParams; encryptedKeys := ∅; cache := ∅ |}.


(** * The rest of [keystore.go] *)

(** ** [encoding/hex]

    The standard encoder and decoder that [Hex] and [hex32] call.
    [hex.Decode] decodes pair by pair into [dst]; the store [dst[i] = ...]
    panics when [i] is past the end of [dst].  On a bad character or an odd
    length it returns the number of bytes decoded so far and the error. *)
Definition hextable : bytes :=
  ["0"; "1"; "2"; "3"; "4"; "5"; "6"; "7"; "8"; "9";
   "a"; "b"; "c"; "d"; "e"; "f"]%byte.

Definition hex_digit (n : N) : byte := default x00 (hextable !! N.to_nat n).

Definition hex_EncodeToString (src : bytes) : bytes :=
  src ≫= (λ v, [hex_digit (N.shiftr (Byte.to_N v) 4);
                hex_digit (N.land (Byte.to_N v) 15)]).

Definition hex_DecodedLen (x : nat) : nat := (x / 2)%nat.

Definition fromHexChar (c : byte) : option N :=
  let n := Byte.to_N c in
  if decide (48 ≤ n ∧ n ≤ 57)%N then Some (n - 48)%N
  else if decide (97 ≤ n ∧ n ≤ 102)%N then Some (n - 97 + 10)%N
  else if decide (65 ≤ n ∧ n ≤ 70)%N then Some (n - 65 + 10)%N
  else None.

Definition hex_InvalidByteError : error := ErrExternal "encoding/hex" "invalid byte".
Definition hex_ErrLength : error := ErrExternal "encoding/hex" "odd length hex string".

(** The loop of [hex.Decode] from index [i] on. *)
Fixpoint hex_Decode_from (dst : bytes) (i : nat) (src : bytes)
  : outcome (nat * option error) * bytes :=
  match src with
  | [] => (Return (i, None), dst)
  | [p] =>
    match fromHexChar p with
    | None => (Return (i, Some hex_InvalidByteError), dst)
    | Some _ => (Return (i, Some hex_ErrLength), dst)
    end
  | p :: q :: rest =>
    match fromHexChar p with
    | None => (Return (i, Some hex_InvalidByteError), dst)
    | Some a =>
      match fromHexChar q with
      | None => (Return (i, Some hex_InvalidByteError), dst)
      | Some b =>
        if decide (i < length dst)%nat
        then hex_Decode_from
               (<[i := default x00 (Byte.of_N (N.lor (N.shiftl a 4) b))]> dst)
               (S i) rest
        else (Panic "index out of range", dst)
      end
    end
  end.

Definition hex_Decode (dst src : bytes) : outcome (nat * option error) * bytes :=
  hex_Decode_from dst 0 src.

(** ** [Hex] and [hex32]

    A text ([[]byte]) is a list of bytes too.  The [Unmarshal] methods
    return their result and the new content of the receiver. *)
Definition Hex_MarshalText (buf : bytes) : result bytes := Ok (hex_EncodeToString buf).

Definition Hex_String (buf : bytes) : bytes := hex_EncodeToString buf.

Definition Hex_UnmarshalText (h : bytes) : outcome (option error) * bytes :=
  let buf := zero (hex_DecodedLen (length h)) in
  match hex_Decode buf h with
  | (Panic msg, buf') => (Panic msg, buf')
  | (Return (_, err), buf') => (Return err, buf')
  end.

Definition hex32_MarshalText (buf : bytes) : result bytes := Ok (hex_EncodeToString buf).

Definition hex32_String (buf : bytes) : bytes := hex_EncodeToString buf.

Definition hex32_UnmarshalText (buf h : bytes) : outcome (option error) * bytes :=
  match hex_Decode buf h with
  | (Panic msg, buf') => (Panic msg, buf')
  | (Return (_, err), buf') => (Return err, buf')
  end.

(** ** [NewKey]

    [babyjub.NewRandPrivKey] is not among the sources: it is a parameter
    that reads the entropy source and may panic. *)
Class BabyJubRand : Type := {
  NewRandPrivKey : RandReader → outcome bytes * RandReader
}.

Definition NewKey {xcrypto : XCrypto} {iden3 : Iden3Crypto} {json : Json}
    {rand : BabyJubRand} {S : Type} {stg : Storage S}
    (ks : KeyStore S) (pass : bytes) (rnd : RandReader)
  : outcome (result bytes) * KeyStore S * RandReader :=
  match NewRandPrivKey rnd with
  | (Panic msg, rnd') => (Panic msg, ks, rnd')
  | (Return sk, rnd') => ImportKey ks sk pass rnd'
  end.

(** ** A toy document format that round-trips

    [toy_Json] cannot be read back.  This one writes a map as the binary
    digits of its code number, after a ["#"]. *)
#[global] Instance EncryptedData_eq_dec : EqDecision EncryptedData.
Proof. solve_decision. Defined.

#[global] Instance EncryptedData_countable : Countable EncryptedData :=
  inj_countable'
    (λ r, (Salt r, encScryptN r, encScryptP r, Nonce r, encEncryptedData r))
    (λ t, let '(s, n, p, c, e) := t in
          {| Salt := s; encScryptN := n; encScryptP := p;
             Nonce := c; encEncryptedData := e |})
    (λ r, match r with Build_EncryptedData _ _ _ _ _ => eq_refl end).

Fixpoint positive_to_digits (p : positive) : bytes :=
  match p with
  | xH => []
  | xO p => "0"%byte :: positive_to_digits p
  | xI p => "1"%byte :: positive_to_digits p
  end.

Fixpoint digits_to_positive (b : bytes) : option positive :=
  match b with
  | [] => Some xH
  | c :: b =>
    p ← digits_to_positive b;
    if decide (c = "0"%byte) then Some (xO p)
    else if decide (c = "1"%byte) then Some (xI p)
    else None
  end.

Definition toy_Json_digits : Json :=
  {| json_Marshal m := Ok ("#"%byte :: positive_to_digits (encode m));
     json_Unmarshal b :=
       match b with
       | c :: digits =>
         match (if decide (c = "#"%byte) then digits_to_positive digits else None)
               ≫= decode with
         | Some m => Ok m
         | None => Err (ErrExternal "json" "invalid character")
         end
       | [] => Err (ErrExternal "json" "unexpected end of JSON input")
       end |}.

(** A toy key generator: the next 32 bytes of the entropy source. *)
Definition toy_BabyJubRand : BabyJubRand :=
  {| NewRandPrivKey rnd :=
       match io_ReadFull rnd 32 with
       | Some (k, rnd') => (Return k, rnd')
       | None => (Panic "reading from crypto/rand failed", rnd)
       end |}.

(** The empty store over the open file storage, and 88 bytes of entropy (a
    key, a salt and a nonce). *)
Definition ks_file : KeyStore FileStorage :=
  {| storage := fs_open; params := LightKeyStoreParams;
     encryptedKeys := ∅; cache := ∅ |}.

Definition rnd88 : RandReader := secret32 ++ rnd56.

(** The public key of [secret32] in the toy curve. *)
Definition pk_secret32 : bytes := reverse secret32.

(** [ks_odd] with the key under [pk_A] unlocked once already: the cache
    points to cell 1, which holds the padded plaintext. *)
Definition ks_odd_unlocked : KeyStore MemStorage :=
  set_cache ks_odd {[ pk_A := 1%positive ]}.

Definition heap_odd : Heap := {[ 1%positive := short3 ++ zero 29 ]}.

(** [ks_file] after the import of [secret32] under "abc" with the toy
    primitives and [toy_Json]. *)
Definition ks_file_imported : KeyStore FileStorage :=
  {| storage :=
       {| path := "ks.json"; lock := true;
          fsys := {| files := {[ "ks.json" := "{"%byte :: pk_secret32 ++ ["}"%byte];
                                 "ks.json.lock" := [] ]};
                     space := None |} |};
     params := LightKeyStoreParams;
     encryptedKeys := {[ pk_secret32 := toy_record ]};
     cache := ∅ |}.

(** The empty store in memory after [NewKey] under "abc" with the entropy
    [rnd88]. *)
Definition ks_mem_new : KeyStore MemStorage :=
  {| storage := "{"%byte :: pk_secret32 ++ ["}"%byte];
     params := LightKeyStoreParams;
     encryptedKeys := {[ pk_secret32 := toy_record ]};
     cache := ∅ |}.

(** 112 bytes of entropy: two salts and two nonces. *)
Definition rnd112 : RandReader := bytes_of_nats (seq 100 112).

(** [r] with another nonce. *)
Definition with_Nonce (r : EncryptedData) (nonce : bytes) : EncryptedData :=
  {| Salt := Salt r; encScryptN := encScryptN r; encScryptP := encScryptP r;
     Nonce := nonce; encEncryptedData := encEncryptedData r |}.
(** * Properties *)

(** Runs the model on a concrete input. *)
Ltac evaluate := vm_compute; reflexivity.

(** ** Arrays and slices *)

Lemma length_zero n : length (zero n) = n.
Proof. apply length_replicate. Qed.

Lemma length_array_copy dst src : length (array_copy dst src) = length dst.
Proof.
  unfold array_copy. rewrite length_app, length_take, length_drop. lia.
Qed.

Lemma array_copy_same_length dst src :
  length src = length dst → array_copy dst src = src.
Proof.
  intros Hlen. unfold array_copy. rewrite Hlen, Nat.min_id.
  rewrite <- Hlen at 1. rewrite firstn_all.
  rewrite drop_ge by lia. apply app_nil_r.
Qed.

Lemma array_copy_zero_short n src :
  (length src ≤ n)%nat →
  array_copy (zero n) src = src ++ zero (n - length src).
Proof.
  intros Hle. unfold array_copy, zero. rewrite length_replicate.
  rewrite Nat.min_r by lia. rewrite firstn_all.
  f_equal. apply drop_replicate.
Qed.

Lemma array_copy_zero_long n src :
  (n ≤ length src)%nat → array_copy (zero n) src = take n src.
Proof.
  intros Hle. unfold array_copy, zero. rewrite length_replicate.
  rewrite Nat.min_l by lia.
  rewrite drop_ge by (rewrite length_replicate; lia). apply app_nil_r.
Qed.

(** Overwriting a 32-byte array with zeros leaves the zero array. *)
Lemma array_copy_clear n cell : length cell = n → array_copy cell (zero n) = zero n.
Proof.
  intros Hlen. apply array_copy_same_length. rewrite length_zero. lia.
Qed.

(** ** [mimc7HashBytes] *)

Lemma foldl_snoc {A B} (f : B → A) (l : list B) (acc : list A) :
  foldl (λ acc i, acc ++ [f i]) acc l = acc ++ map f l.
Proof.
  revert acc. induction l as [|i l IH]; intros acc; simpl.
  - by rewrite app_nil_r.
  - rewrite IH. by rewrite <- app_assoc.
Qed.

(** What the loop and the final [if] of [mimc7HashBytes] compute: the full
    blocks, then, when the length is no multiple of 31, one more element
    read from [msg[len(msg)/31:]]. *)
Lemma mimc7HashBytes_msgElems_eq msg :
  mimc7HashBytes_msgElems msg =
  map (λ i, SetBigIntFromLEBytes (slice msg (31 * i) (31 * (i + 1))))
      (seq 0 (length msg / 31))
  ++ (if decide (length msg `mod` 31 ≠ 0)%nat
      then [SetBigIntFromLEBytes (slice_from msg (length msg / 31))]
      else []).
Proof.
  unfold mimc7HashBytes_msgElems. rewrite foldl_snoc. simpl.
  destruct (decide _); [done | by rewrite app_nil_r].
Qed.

(** On a message shorter than one block, or made of full blocks only, the
    code hashes the blocks that the comment describes. *)
Lemma mimc7HashBytes_msgElems_documented msg :
  (length msg < 31 ∨ length msg `mod` 31 = 0)%nat →
  mimc7HashBytes_msgElems msg = documented_msgElems msg.
Proof.
  intros Hlen. rewrite mimc7HashBytes_msgElems_eq.
  unfold documented_msgElems, blocks31. rewrite map_map.
  destruct (decide (length msg `mod` 31 = 0)%nat) as [Hmod|Hmod].
  - rewrite decide_False by lia. rewrite app_nil_r.
    assert (Hdiv : ((length msg + 30) / 31 = length msg / 31)%nat).
    { pose proof (Nat.div_mod_eq (length msg) 31).
      symmetry. apply (Nat.div_unique _ 31 _ 30); lia. }
    rewrite Hdiv. apply map_ext_in. intros i Hi. apply in_seq in Hi.
    do 2 f_equal.
    pose proof (Nat.div_mod_eq (length msg) 31). nia.
  - destruct Hlen as [Hlt|?]; [|lia].
    rewrite decide_True by done.
    rewrite (Nat.div_small (length msg) 31) by lia.
    assert (Hone : ((length msg + 30) / 31 = 1)%nat).
    { rewrite Nat.mod_small in Hmod by lia.
      symmetry. apply (Nat.div_unique _ 31 _ (length msg - 1)); lia. }
    rewrite Hone. cbn [seq map app]. unfold slice_from, slice.
    replace ((31 * (0 + 1)) `min` length msg - 31 * 0)%nat with (length msg) by lia.
    replace (31 * 0)%nat with 0%nat by lia.
    by rewrite drop_0, firstn_all.
Qed.

(** C1 (code defect): on the 32-byte message [0x00 .. 0x1f] the element
    after the full block is read from [msg[1:]], the 31 bytes
    [0x01 .. 0x1f], and not from the last [32 mod 31 = 1] byte [msg[31:]]:
    the elements given to [mimc7.Hash] are not those of the consecutive
    31-byte blocks. *)
Theorem mimc7HashBytes_final_chunk_msg32 {iden3 : Iden3Crypto} :
  mimc7HashBytes msg32 =
    mimc7_Hash [SetBigIntFromLEBytes (slice msg32 0 31);
                SetBigIntFromLEBytes (slice_from msg32 1)] None
  ∧ length (slice_from msg32 1) = 31%nat
  ∧ documented_msgElems msg32 =
      [SetBigIntFromLEBytes (slice msg32 0 31);
       SetBigIntFromLEBytes (slice_from msg32 31)]
  ∧ length (slice_from msg32 31) = (32 `mod` 31)%nat
  ∧ mimc7HashBytes_msgElems msg32 ≠ documented_msgElems msg32.
Proof.
  repeat split; try reflexivity.
  vm_compute. discriminate.
Qed.

(** ** Encryption and decryption *)

Lemma io_ReadFull_Some rnd n b rnd' :
  io_ReadFull rnd n = Some (b, rnd') →
  length b = n ∧ rnd = b ++ rnd'.
Proof.
  unfold io_ReadFull. case_decide; [|done].
  intros [= <- <-]. split.
  - rewrite length_take. lia.
  - by rewrite take_drop.
Qed.

Section EncryptionFacts.
Context {xcrypto : XCrypto}.

(** What a record made by [EncryptData] holds. *)
Lemma EncryptData_Ok data pass N P rnd rec rnd' :
  EncryptData data pass N P rnd = (Return (Ok rec), rnd') →
  ∃ derivedKey,
    length (Salt rec) = 32%nat ∧ length (Nonce rec) = 24%nat
    ∧ encScryptN rec = N ∧ encScryptP rec = P
    ∧ scrypt_Key pass (Salt rec) N scryptR P scryptDKLen = Ok derivedKey
    ∧ encEncryptedData rec =
        secretbox_Seal [] data (Nonce rec) (array_copy (zero 32) derivedKey)
    ∧ rnd = Salt rec ++ Nonce rec ++ rnd'.
Proof.
  unfold EncryptData.
  destruct (io_ReadFull rnd 32) as [[salt rnd1]|] eqn:Hsalt; [|done].
  destruct (scrypt_Key pass salt N scryptR P scryptDKLen) as [dk|e] eqn:Hkey; [|done].
  destruct (io_ReadFull rnd1 24) as [[nonce rnd2]|] eqn:Hnonce; [|done].
  intros [= <- <-]. simpl.
  apply io_ReadFull_Some in Hsalt as [? ->].
  apply io_ReadFull_Some in Hnonce as [? ->].
  exists dk. repeat split; done.
Qed.

(** [EncryptData] makes a record whenever the entropy source holds the 56
    bytes of a salt and a nonce and scrypt accepts the parameters. *)
Lemma EncryptData_succeeds data pass N P rnd derivedKey :
  (56 ≤ length rnd)%nat →
  scrypt_Key pass (take 32 rnd) N scryptR P scryptDKLen = Ok derivedKey →
  ∃ rec, EncryptData data pass N P rnd = (Return (Ok rec), drop 56 rnd).
Proof.
  intros Hlen Hkey. unfold EncryptData, io_ReadFull.
  rewrite decide_True by lia. rewrite Hkey.
  rewrite decide_True by (rewrite length_drop; lia).
  eexists. by rewrite drop_drop.
Qed.

(** [DecryptData] returns data exactly when [secretbox.Open] accepts the
    record's box under the record's nonce and the key derived with the
    record's own salt, N and P. *)
Lemma DecryptData_Ok encData pass data :
  DecryptData encData pass = Ok data ↔
  ∃ derivedKey,
    scrypt_Key pass (Salt encData) (encScryptN encData) scryptR
               (encScryptP encData) scryptDKLen = Ok derivedKey
    ∧ secretbox_Open [] (encEncryptedData encData)
        (array_copy (zero 24) (Nonce encData))
        (array_copy (zero 32) derivedKey) = Some data.
Proof.
  unfold DecryptData. split.
  - destruct (scrypt_Key _ _ _ _ _ _) as [dk|e]; [|done].
    destruct (secretbox_Open _ _ _ _) as [d|] eqn:Hopen; [|done].
    intros [= <-]. by exists dk.
  - intros (dk & -> & ->). done.
Qed.

Lemma DecryptData_rejected encData pass derivedKey :
  scrypt_Key pass (Salt encData) (encScryptN encData) scryptR
             (encScryptP encData) scryptDKLen = Ok derivedKey →
  secretbox_Open [] (encEncryptedData encData)
    (array_copy (zero 24) (Nonce encData))
    (array_copy (zero 32) derivedKey) = None →
  DecryptData encData pass = Err (Errorf "Invalid encrypted data").
Proof. unfold DecryptData. by intros -> ->. Qed.

Lemma UnlockKey_error {S} (ks : KeyStore S) pk pass h encryptedKey e :
  encryptedKeys ks !! pk = Some encryptedKey →
  DecryptData encryptedKey pass = Err e →
  UnlockKey ks pk pass h = (Some e, ks, h).
Proof. unfold UnlockKey. by intros -> ->. Qed.

Lemma UnlockKey_Ok {S} (ks : KeyStore S) pk pass h encryptedKey skBuf :
  encryptedKeys ks !! pk = Some encryptedKey →
  DecryptData encryptedKey pass = Ok skBuf →
  UnlockKey ks pk pass h =
    (None, set_cache ks (<[pk := fresh (dom h)]> (cache ks)),
     <[fresh (dom h) := array_copy (zero 32) skBuf]> h).
Proof. unfold UnlockKey. by intros -> ->. Qed.
End EncryptionFacts.

Section Roundtrip.
Context {xcrypto : XCrypto}.

(** The contract of secretbox that the round trip rests on: a box opens,
    under the nonce and key that sealed it, to the sealed message. *)
Hypothesis secretbox_Open_Seal : ∀ message nonce key : bytes,
  length nonce = 24%nat → length key = 32%nat →
  secretbox_Open [] (secretbox_Seal [] message nonce key) nonce key = Some message.

(** C3: decrypting the record that [EncryptData D P N Pp] produced, with
    the same passphrase, returns exactly [D].  [DecryptData] takes the salt,
    N and P from the record, so [UnlockKey] recovers the data in a store of
    any parameters. *)
Theorem EncryptData_DecryptData_roundtrip (D P : bytes) (N Pp : Z)
    (rnd rnd' : RandReader) (rec : EncryptedData) :
  EncryptData D P N Pp rnd = (Return (Ok rec), rnd') →
  DecryptData rec P = Ok D
  ∧ ∀ (S : Type) (ks : KeyStore S) (pk : bytes) (h : Heap),
      encryptedKeys ks !! pk = Some rec →
      UnlockKey ks pk P h =
        (None, set_cache ks (<[pk := fresh (dom h)]> (cache ks)),
         <[fresh (dom h) := array_copy (zero 32) D]> h).
Proof.
  intros Henc.
  apply EncryptData_Ok in Henc
    as (dk & Hsalt & Hnonce & HN & HP & Hkey & Hbox & _).
  assert (Hdec : DecryptData rec P = Ok D).
  { apply DecryptData_Ok. exists dk. rewrite HN, HP. split; [done|].
    rewrite Hbox.
    rewrite (array_copy_same_length (zero 24) (Nonce rec))
      by (by rewrite length_zero).
    apply secretbox_Open_Seal; [done|].
    by rewrite length_array_copy, length_zero. }
  split; [done|].
  intros S ks pk h Hpk. by apply UnlockKey_Ok with rec.
Qed.
End Roundtrip.

(** ** Bit flips *)

Lemma flip_byte_neq k b : flip_byte k b ≠ b.
Proof.
  unfold flip_byte.
  assert (Hk : (k `mod` 8 < 8)%nat) by (apply Nat.mod_upper_bound; lia).
  destruct (k `mod` 8)%nat as [|[|[|[|[|[|[|[|j]]]]]]]]; [..|lia];
    destruct b; vm_compute; discriminate.
Qed.

Lemma length_flip_bit i l : length (flip_bit i l) = length l.
Proof. unfold flip_bit. apply length_alter. Qed.

Lemma flip_bit_neq i l : (i < 8 * length l)%nat → flip_bit i l ≠ l.
Proof.
  intros Hi Heq. unfold flip_bit in Heq.
  assert (Hlt : (i / 8 < length l)%nat) by (apply Nat.Div0.div_lt_upper_bound; lia).
  destruct (lookup_lt_is_Some_2 l (i / 8)%nat Hlt) as [b Hb].
  assert (Hb' : alter (flip_byte (i `mod` 8)) (i / 8)%nat l !! (i / 8)%nat
                = Some (flip_byte (i `mod` 8) b)).
  { rewrite list_lookup_alter_eq, Hb. done. }
  rewrite Heq, Hb in Hb'. injection Hb' as Hb'.
  symmetry in Hb'. by apply flip_byte_neq in Hb'.
Qed.

(** A flipped bit changes the byte it lies in and no other. *)
Lemma flip_bit_lookup_ne i j l : j ≠ (i / 8)%nat → flip_bit i l !! j = l !! j.
Proof. intros Hj. unfold flip_bit. by apply list_lookup_alter_ne. Qed.

(** ** The toy secretbox meets the contract of an authenticated cipher *)

Lemma toy_Open_Seal message nonce key :
  toy_Open [] (toy_Seal [] message nonce key) nonce key = Some message.
Proof.
  unfold toy_Open, toy_Seal. cbn [app].
  assert (Hbody : drop (length key + length nonce) (key ++ nonce ++ message ++ message)
                  = message ++ message).
  { rewrite app_assoc, drop_app_length'; [done|]. by rewrite length_app. }
  rewrite Hbody.
  assert (Hhalf : (length (message ++ message) / 2 = length message)%nat).
  { rewrite length_app. replace (length message + length message)%nat
      with (length message * 2)%nat by lia. by rewrite Nat.div_mul. }
  rewrite Hhalf, take_app_length. by rewrite decide_True.
Qed.

Lemma toy_Open_wrong_key message nonce key key' :
  length key' = length key → key' ≠ key →
  toy_Open [] (toy_Seal [] message nonce key) nonce key' = None.
Proof.
  intros Hlen Hne. unfold toy_Open, toy_Seal. cbn [app].
  case_decide as Heq; [|done].
  apply app_inj_1 in Heq as [Heq _]; [|done]. congruence.
Qed.

Lemma toy_Open_wrong_nonce message nonce key nonce' :
  length nonce' = length nonce → nonce' ≠ nonce →
  toy_Open [] (toy_Seal [] message nonce key) nonce' key = None.
Proof.
  intros Hlen Hne. unfold toy_Open, toy_Seal. cbn [app].
  case_decide as Heq; [|done].
  apply app_inv_head in Heq.
  apply app_inj_1 in Heq as [Heq _]; [|done]. congruence.
Qed.

Lemma toy_Open_flipped message nonce key i :
  (i < 8 * length (toy_Seal [] message nonce key))%nat →
  toy_Open [] (flip_bit i (toy_Seal [] message nonce key)) nonce key = None.
Proof.
  intros Hi. unfold toy_Open.
  set (box := toy_Seal [] message nonce key) in *.
  set (m' := take _ _).
  case_decide as Heq; [exfalso|done].
  apply (flip_bit_neq i box Hi).
  assert (Hbox : box = (key ++ nonce) ++ message ++ message).
  { unfold box, toy_Seal. cbn [app]. by rewrite app_assoc. }
  rewrite app_assoc in Heq.
  assert (Hlen : length m' = length message).
  { pose proof (length_flip_bit i box) as Hl.
    rewrite Heq, Hbox in Hl. rewrite !length_app in Hl. lia. }
  enough (m' = message) as -> by (by rewrite Heq, Hbox).
  apply list_eq. intros q.
  destruct (decide (q < length message)%nat) as [Hq|Hq].
  2: { rewrite !lookup_ge_None_2; [done|lia..]. }
  set (p := length (key ++ nonce)).
  destruct (decide (p + q = i / 8)%nat) as [Hj|Hj].
  - (* the flipped byte is in the first copy: read the second one *)
    pose proof (flip_bit_lookup_ne i (p + (length message + q)) box) as Hsame.
    rewrite Heq, Hbox in Hsame.
    rewrite !lookup_app_r in Hsame by (fold p; lia).
    assert (E1 : (p + (length message + q) - length (key ++ nonce) - length m' = q)%nat)
      by (subst p; lia).
    assert (E2 : (p + (length message + q) - length (key ++ nonce) - length message = q)%nat)
      by (subst p; lia).
    rewrite E1, E2 in Hsame. apply Hsame. lia.
  - pose proof (flip_bit_lookup_ne i (p + q) box) as Hsame.
    rewrite Heq, Hbox in Hsame.
    rewrite !(lookup_app_r (key ++ nonce)) in Hsame by (fold p; lia).
    assert (E : (p + q - length (key ++ nonce) = q)%nat) by (subst p; lia).
    rewrite E in Hsame.
    rewrite !lookup_app_l in Hsame by lia.
    apply Hsame. lia.
Qed.

(** C3 at a concrete input: the toy primitives, a 32-byte secret, the
    passphrase "abc" and the light parameters. *)
Lemma EncryptData_DecryptData_roundtrip_witness :
  (∀ message nonce key : bytes,
      length nonce = 24%nat → length key = 32%nat →
      toy_Open [] (toy_Seal [] message nonce key) nonce key = Some message)
  ∧ EncryptData (xcrypto := toy_XCrypto) secret32 pass_abc
      LightScryptN LightScryptP rnd56 = (Return (Ok toy_record), [])
  ∧ DecryptData (xcrypto := toy_XCrypto) toy_record pass_abc = Ok secret32.
Proof.
  split; [intros; apply toy_Open_Seal|].
  split; [evaluate|].
  refine (proj1 (EncryptData_DecryptData_roundtrip (xcrypto := toy_XCrypto)
                   (λ m n k _ _, toy_Open_Seal m n k)
                   secret32 pass_abc LightScryptN LightScryptP rnd56 []
                   toy_record _)).
  evaluate.
Defined.

Section FailClosed.
Context {xcrypto : XCrypto}.

(** The contract of secretbox as an authenticated cipher: a sealed box
    opens under no other key and under no other nonce, and not after one of
    its bits was flipped. *)
Hypothesis secretbox_Open_wrong_key : ∀ message nonce key key' : bytes,
  length nonce = 24%nat → length key = 32%nat → length key' = 32%nat →
  key' ≠ key →
  secretbox_Open [] (secretbox_Seal [] message nonce key) nonce key' = None.
Hypothesis secretbox_Open_wrong_nonce : ∀ message nonce nonce' key : bytes,
  length nonce = 24%nat → length nonce' = 24%nat → length key = 32%nat →
  nonce' ≠ nonce →
  secretbox_Open [] (secretbox_Seal [] message nonce key) nonce' key = None.
Hypothesis secretbox_Open_flipped : ∀ (message nonce key : bytes) (i : nat),
  length nonce = 24%nat → length key = 32%nat →
  (i < 8 * length (secretbox_Seal [] message nonce key))%nat →
  secretbox_Open [] (flip_bit i (secretbox_Seal [] message nonce key)) nonce key = None.

(** C5: [DecryptData] fails closed.  For a record made by [EncryptData]
    under passphrase [P], a different passphrase (from which scrypt derives
    a different key), or a bit flipped in the ciphertext or in the nonce,
    makes [DecryptData] return the error "Invalid encrypted data" and no
    plaintext; [UnlockKey] returns that error and changes neither the store
    nor the heap of unlocked keys. *)
Theorem DecryptData_fails_closed (D P : bytes) (N Pp : Z) (rnd rnd' : RandReader)
    (rec rec' : EncryptedData) (P' : bytes) :
  EncryptData D P N Pp rnd = (Return (Ok rec), rnd') →
  tampered rec P rec' P' →
  DecryptData rec' P' = Err (Errorf "Invalid encrypted data")
  ∧ ∀ (S : Type) (ks : KeyStore S) (pk : bytes) (h : Heap),
      encryptedKeys ks !! pk = Some rec' →
      UnlockKey ks pk P' h = (Some (Errorf "Invalid encrypted data"), ks, h).
Proof.
  intros Henc Htamper.
  apply EncryptData_Ok in Henc
    as (dk & Hsalt & Hnonce & HN & HP & Hkey & Hbox & _).
  assert (Hk32 : ∀ d, length (array_copy (zero 32) d) = 32%nat)
    by (intros; by rewrite length_array_copy, length_zero).
  assert (Hdec : DecryptData rec' P' = Err (Errorf "Invalid encrypted data")).
  { destruct Htamper as [P' dk0 dk' HP' Hdk0 Hdk' Hne | i Hi | i Hi].
    - apply DecryptData_rejected with dk'; [done|].
      rewrite HN, HP, Hkey in Hdk0. injection Hdk0 as <-.
      rewrite Hbox.
      rewrite (array_copy_same_length (zero 24)) by (by rewrite length_zero).
      by apply secretbox_Open_wrong_key.
    - apply DecryptData_rejected with dk;
        cbn [flip_ciphertext flip_nonce Salt encScryptN encScryptP Nonce encEncryptedData];
        [by rewrite HN, HP|].
      rewrite Hbox.
      rewrite (array_copy_same_length (zero 24)) by (by rewrite length_zero).
      apply secretbox_Open_flipped; [done..|]. by rewrite <- Hbox.
    - apply DecryptData_rejected with dk;
        cbn [flip_ciphertext flip_nonce Salt encScryptN encScryptP Nonce encEncryptedData];
        [by rewrite HN, HP|].
      rewrite Hbox.
      rewrite (array_copy_same_length (zero 24))
        by (by rewrite length_flip_bit, length_zero).
      apply secretbox_Open_wrong_nonce; [done| |done|].
      + by rewrite length_flip_bit.
      + by apply flip_bit_neq. }
  split; [done|].
  intros S ks pk h Hpk. by apply UnlockKey_error with rec'.
Qed.
End FailClosed.

(** C5 at concrete inputs: the toy record of "abc" opened with "abd", with
    bit 0 of its ciphertext flipped, and with the last bit of its nonce
    flipped. *)
Lemma DecryptData_fails_closed_witness :
  EncryptData (xcrypto := toy_XCrypto) secret32 pass_abc
    LightScryptN LightScryptP rnd56 = (Return (Ok toy_record), [])
  ∧ tampered (xcrypto := toy_XCrypto) toy_record pass_abc toy_record pass_abd
  ∧ DecryptData (xcrypto := toy_XCrypto) toy_record pass_abd
      = Err (Errorf "Invalid encrypted data")
  ∧ DecryptData (xcrypto := toy_XCrypto) (flip_ciphertext 0 toy_record) pass_abc
      = Err (Errorf "Invalid encrypted data")
  ∧ DecryptData (xcrypto := toy_XCrypto) (flip_nonce 191 toy_record) pass_abc
      = Err (Errorf "Invalid encrypted data").
Proof.
  assert (Henc : EncryptData (xcrypto := toy_XCrypto) secret32 pass_abc
            LightScryptN LightScryptP rnd56 = (Return (Ok toy_record), []))
    by (evaluate).
  assert (Hwrong : tampered (xcrypto := toy_XCrypto)
                     toy_record pass_abc toy_record pass_abd).
  { eapply wrong_passphrase; [discriminate | evaluate
                             | evaluate | vm_compute; discriminate]. }
  pose (thm := DecryptData_fails_closed (xcrypto := toy_XCrypto)
          (λ m n k k' _ Hk Hk' Hne,
             toy_Open_wrong_key m n k k' (eq_trans Hk' (eq_sym Hk)) Hne)
          (λ m n n' k Hn Hn' _ Hne,
             toy_Open_wrong_nonce m n k n' (eq_trans Hn' (eq_sym Hn)) Hne)
          (λ m n k i _ _ Hi, toy_Open_flipped m n k i Hi)
          secret32 pass_abc LightScryptN LightScryptP rnd56 [] toy_record).
  split; [exact Henc|].
  split; [exact Hwrong|].
  split; [exact (proj1 (thm _ _ Henc Hwrong))|].
  split.
  - refine (proj1 (thm _ _ Henc (flipped_ciphertext _ _ 0 _))).
    vm_compute. lia.
  - refine (proj1 (thm _ _ Henc (flipped_nonce _ _ 191 _))).
    vm_compute. lia.
Defined.

(** ** [UnlockKey] *)

(** C10: [UnlockKey] does not check the length of the decrypted plaintext.
    Whatever its length, the key is unlocked, and the cached cell holds the
    first [min 32 len] bytes of the plaintext followed by zeros up to 32
    bytes: a longer plaintext is truncated, a shorter one padded. *)
Theorem UnlockKey_no_length_validation {xcrypto : XCrypto} {S : Type}
    (ks : KeyStore S) (pk pass : bytes) (h : Heap)
    (encryptedKey : EncryptedData) (skBuf : bytes) :
  encryptedKeys ks !! pk = Some encryptedKey →
  DecryptData encryptedKey pass = Ok skBuf →
  length skBuf ≠ 32%nat →
  ∃ (ks' : KeyStore S) (h' : Heap) (sk : loc) (cell : bytes),
    UnlockKey ks pk pass h = (None, ks', h')
    ∧ cache ks' !! pk = Some sk
    ∧ h' !! sk = Some cell
    ∧ cell = take (32 `min` length skBuf) skBuf
             ++ zero (32 - 32 `min` length skBuf)
    ∧ length cell = 32%nat
    ∧ (32 < length skBuf → cell = take 32 skBuf)%nat
    ∧ (length skBuf < 32 → cell = skBuf ++ zero (32 - length skBuf))%nat.
Proof.
  intros Hpk Hdec _.
  eexists _, _, (fresh (dom h)), (array_copy (zero 32) skBuf).
  split; [by apply UnlockKey_Ok with encryptedKey|].
  split; [apply lookup_insert_eq|].
  split; [apply lookup_insert_eq|].
  split.
  { unfold array_copy, zero. rewrite length_replicate.
    f_equal. by rewrite drop_replicate. }
  split; [by rewrite length_array_copy, length_zero|].
  split; intros Hlen.
  - rewrite array_copy_zero_long by lia. done.
  - rewrite array_copy_zero_short by lia. done.
Qed.

(** C10 on the store [ks_odd]: the 3-byte plaintext under [pk_A] is
    padded, the 40-byte plaintext under [pk_B] is cut. *)
Lemma UnlockKey_no_length_validation_witness :
  (∃ sk,
     UnlockKey (xcrypto := toy_XCrypto) ks_odd pk_A pass_abc ∅
     = (None, set_cache ks_odd {[ pk_A := sk ]},
        {[ sk := short3 ++ zero 29 ]}))
  ∧ (∃ sk,
       UnlockKey (xcrypto := toy_XCrypto) ks_odd pk_B pass_abc ∅
       = (None, set_cache ks_odd {[ pk_B := sk ]},
          {[ sk := take 32 long40 ]})).
Proof.
  split.
  - destruct (UnlockKey_no_length_validation (xcrypto := toy_XCrypto)
                ks_odd pk_A pass_abc ∅ (toy_record_of short3) short3)
      as (ks' & h' & sk & cell & Hrun & _).
    + evaluate.
    + evaluate.
    + vm_compute; lia.
    + exists (fresh (dom (∅ : Heap))). evaluate.
  - destruct (UnlockKey_no_length_validation (xcrypto := toy_XCrypto)
                ks_odd pk_B pass_abc ∅ (toy_record_of long40) long40)
      as (ks' & h' & sk & cell & Hrun & _).
    + evaluate.
    + evaluate.
    + vm_compute; lia.
    + exists (fresh (dom (∅ : Heap))). evaluate.
Defined.

(** ** The finalizer *)

Lemma clear_cells_lookup (ls : list loc) (h : Heap) (l : loc) :
  (∀ sk, sk ∈ ls → ∃ cell, h !! sk = Some cell ∧ length cell = 32%nat) →
  foldr (λ sk h, alter (λ cell, array_copy cell (zero 32)) sk h) h ls !! l
  = if decide (l ∈ ls) then Some (zero 32) else h !! l.
Proof.
  induction ls as [|a ls IH]; intros Htyped; cbn [foldr].
  - case_decide; [set_solver|done].
  - rewrite lookup_alter.
    destruct (decide (a = l)) as [->|Hne];
      rewrite IH by (intros; apply Htyped; set_solver).
    + rewrite (decide_True (P := l ∈ l :: ls)) by set_solver.
      destruct (decide (l ∈ ls)); cbn [fmap option_fmap option_map].
      * by rewrite array_copy_clear by apply length_zero.
      * destruct (Htyped l) as (cell & -> & Hlen); [set_solver|].
        cbn [fmap option_fmap option_map]. by rewrite array_copy_clear.
    + destruct (decide (l ∈ ls)) as [Hin|Hin];
        destruct (decide (l ∈ a :: ls)) as [Hin'|Hin']; try done.
      * destruct Hin'. apply elem_of_cons. by right.
      * apply elem_of_cons in Hin' as [->|?]; done.
Qed.

Lemma elem_of_cache_cells {S} (ks : KeyStore S) (l : loc) :
  l ∈ (map_to_list (cache ks)).*2 ↔ ∃ pk, cache ks !! pk = Some l.
Proof.
  rewrite list_elem_of_fmap. split.
  - intros ([pk sk] & -> & Hin). exists pk. by apply elem_of_map_to_list.
  - intros (pk & Hpk). exists (pk, l). split; [done|].
    by apply elem_of_map_to_list.
Qed.

(** The typing of the cache is established by [UnlockKey] and kept by it. *)
Lemma UnlockKey_cache_typed {xcrypto : XCrypto} {S} (ks ks' : KeyStore S)
    pk pass h h' err :
  cache_typed ks h →
  UnlockKey ks pk pass h = (err, ks', h') →
  cache_typed ks' h'.
Proof.
  intros Htyped. unfold UnlockKey.
  destruct (encryptedKeys ks !! pk) as [rec|]; [|by intros [= <- <- <-]].
  destruct (DecryptData rec pass) as [skBuf|e]; [|by intros [= <- <- <-]].
  intros [= <- <- <-]. intros pk' sk'. simpl.
  assert (Hfresh : h !! fresh (dom h) = None).
  { apply not_elem_of_dom. apply is_fresh. }
  destruct (decide (pk = pk')) as [->|Hne].
  - rewrite lookup_insert_eq. intros [= <-].
    exists (array_copy (zero 32) skBuf). rewrite lookup_insert_eq.
    split; [done|]. by rewrite length_array_copy, length_zero.
  - rewrite lookup_insert_ne by done. intros Hc.
    destruct (Htyped pk' sk' Hc) as (cell & Hcell & Hlen).
    exists cell. split; [|done].
    rewrite lookup_insert_ne; [done|]. congruence.
Qed.

(** C8: disposal, the finalizer of the key store, overwrites the 32 bytes
    of every cached secret key with zeros, in place (every pointer to the
    cell sees the zeros), leaves the other cells of the heap alone, and
    leaves the storage in the state that [Unlock] yields. *)
Theorem finalizer_clears_cache_and_unlocks {S : Type} {stg : Storage S}
    (ks : KeyStore S) (h : Heap) :
  cache_typed ks h →
  (∀ pk sk, cache ks !! pk = Some sk → (finalizer ks h).2 !! sk = Some (zero 32))
  ∧ (∀ l, (∀ pk, cache ks !! pk ≠ Some l) → (finalizer ks h).2 !! l = h !! l)
  ∧ (finalizer ks h).1 = (Unlock (storage ks)).2.
Proof.
  intros Htyped.
  assert (Hcells : ∀ sk, sk ∈ (map_to_list (cache ks)).*2 →
                         ∃ cell, h !! sk = Some cell ∧ length cell = 32%nat).
  { intros sk (pk & Hpk)%elem_of_cache_cells. by apply Htyped with pk. }
  unfold finalizer. cbn [fst snd]. repeat split.
  - intros pk sk Hpk. rewrite clear_cells_lookup by done.
    rewrite decide_True; [done|]. apply elem_of_cache_cells. by exists pk.
  - intros l Hl. rewrite clear_cells_lookup by done.
    rewrite decide_False; [done|].
    intros (pk & Hpk)%elem_of_cache_cells. by apply (Hl pk).
Qed.

(** C8 on the open file-backed store [ks_unlocked]: both cached keys are
    zeroed, the third cell keeps its bytes, the lock is released and the
    lock file is gone. *)
Lemma finalizer_clears_cache_and_unlocks_witness :
  cache_typed ks_unlocked heap_unlocked
  ∧ (finalizer ks_unlocked heap_unlocked).2 !! 1%positive = Some (zero 32)
  ∧ (finalizer ks_unlocked heap_unlocked).2 !! 2%positive = Some (zero 32)
  ∧ (finalizer ks_unlocked heap_unlocked).2 !! 3%positive
      = Some (bytes_of_nats (seq 65 32))
  ∧ (finalizer ks_unlocked heap_unlocked).1
      = {| path := "ks.json"; lock := false;
           fsys := {| files := {[ "ks.json" := [] ]}; space := None |} |}.
Proof.
  assert (Htyped : cache_typed ks_unlocked heap_unlocked).
  { intros pk sk Hpk. unfold ks_unlocked in Hpk. cbn [cache] in Hpk.
    apply lookup_insert_Some in Hpk as [[_ <-]|[_ Hpk]].
    - by exists secret32.
    - apply lookup_singleton_Some in Hpk as [_ <-].
      by exists (bytes_of_nats (seq 33 32)). }
  destruct (finalizer_clears_cache_and_unlocks ks_unlocked heap_unlocked Htyped)
    as (Hzero & Hother & Hunlock).
  split; [exact Htyped|].
  split; [apply (Hzero pk_A); evaluate|].
  split; [apply (Hzero pk_B); evaluate|].
  split.
  - rewrite Hother; [evaluate|].
    intros pk Hpk. unfold ks_unlocked in Hpk. cbn [cache] in Hpk.
    apply lookup_insert_Some in Hpk as [[_ ?]|[_ Hpk]]; [done|].
    by apply lookup_singleton_Some in Hpk as [_ ?].
  - rewrite Hunlock. evaluate.
Defined.

(** ** [NewKeyStore] *)

Section OpenStore.
Context {json : Json} {S : Type} {stg : Storage S}.

Lemma NewKeyStore_Lock_error (st st1 : S) prm e :
  Lock st = (Some e, st1) → NewKeyStore st prm = (Err e, st1).
Proof. unfold NewKeyStore. by intros ->. Qed.

Lemma NewKeyStore_empty_blob (st st1 st2 : S) prm :
  Lock st = (None, st1) → Read st1 = (Ok [], st2) →
  NewKeyStore st prm =
    (Ok {| storage := st2; params := prm; encryptedKeys := ∅; cache := ∅ |}, st2).
Proof. unfold NewKeyStore. by intros -> ->. Qed.

Lemma NewKeyStore_not_exist (st st1 st2 : S) prm e :
  Lock st = (None, st1) → Read st1 = (Err e, st2) →
  os_IsNotExist (Some e) = true →
  NewKeyStore st prm =
    (Ok {| storage := st2; params := prm; encryptedKeys := ∅; cache := ∅ |}, st2).
Proof. unfold NewKeyStore. by intros -> -> ->. Qed.

Lemma NewKeyStore_Read_error (st st1 st2 : S) prm e :
  Lock st = (None, st1) → Read st1 = (Err e, st2) →
  os_IsNotExist (Some e) = false →
  NewKeyStore st prm = (Err e, (Unlock st2).2).
Proof. unfold NewKeyStore. by intros -> -> ->. Qed.

Lemma NewKeyStore_malformed (st st1 st2 : S) prm blob e :
  Lock st = (None, st1) → Read st1 = (Ok blob, st2) →
  blob ≠ [] → json_Unmarshal blob = Err e →
  NewKeyStore st prm = (Err e, (Unlock st2).2).
Proof.
  unfold NewKeyStore. intros -> -> Hblob ->.
  rewrite decide_False; [done|]. by destruct blob.
Qed.

Lemma NewKeyStore_Ok (st st' : S) prm ks :
  NewKeyStore st prm = (Ok ks, st') →
  cache ks = ∅ ∧ params ks = prm ∧ storage ks = st'
  ∧ ∃ st1, Lock st = (None, st1) ∧ st' = (Read st1).2.
Proof.
  unfold NewKeyStore.
  destruct (Lock st) as [[e|] st1]; [done|].
  destruct (Read st1) as [r st2] eqn:Hread.
  destruct (match r with Ok b => _ | Err e => _ end) as [blob|e]; [|done].
  destruct (if decide _ then _ else _) as [m|e]; [|done].
  intros [= <- <-]. do 3 (split; [done|]).
  exists st1. by rewrite Hread.
Qed.

(** C7: [NewKeyStore] takes the storage lock first and fails with the
    error of [Lock], touching nothing else, when the lock is not to be had;
    on an empty blob it returns a store with an empty map of records; on a
    blob that does not parse it fails, and the storage is left as [Unlock]
    leaves it; and every store it returns has an empty cache. *)
Theorem NewKeyStore_open (st : S) (prm : KeyStoreParams) :
  (∀ e st1, Lock st = (Some e, st1) → NewKeyStore st prm = (Err e, st1))
  ∧ (∀ st1 st2, Lock st = (None, st1) → Read st1 = (Ok [], st2) →
       NewKeyStore st prm =
         (Ok {| storage := st2; params := prm;
                encryptedKeys := ∅; cache := ∅ |}, st2))
  ∧ (∀ st1 st2 blob e, Lock st = (None, st1) → Read st1 = (Ok blob, st2) →
       blob ≠ [] → json_Unmarshal blob = Err e →
       NewKeyStore st prm = (Err e, (Unlock st2).2))
  ∧ (∀ ks st', NewKeyStore st prm = (Ok ks, st') →
       cache ks = ∅ ∧ ∃ st1, Lock st = (None, st1)).
Proof.
  split; [intros; by apply NewKeyStore_Lock_error|].
  split; [intros; by apply NewKeyStore_empty_blob with st1|].
  split; [intros; by apply NewKeyStore_malformed with st1 blob|].
  intros ks st' (Hcache & _ & _ & st1 & Hlock & _)%NewKeyStore_Ok.
  split; [done|]. by exists st1.
Qed.
End OpenStore.

(** C7 on concrete storages: a storage whose lock is taken, the empty
    store in memory, and a file that is no JSON document (the lock taken at
    the start is released and the lock file removed before the error
    comes back). *)
Example NewKeyStore_open_examples :
  NewKeyStore (json := toy_Json) (stg := BusyStorage_Storage) [] LightKeyStoreParams
    = (Err (ErrExternal "flock" "resource temporarily unavailable"), [])
  ∧ NewKeyStore (json := toy_Json) (stg := MemStorage_Storage) [] LightKeyStoreParams
    = (Ok ks_mem, [])
  ∧ NewKeyStore (json := toy_Json) (NewFileStorage "ks.json" fsys_garbage)
      LightKeyStoreParams
    = (Err (ErrExternal "json" "invalid character"),
       NewFileStorage "ks.json" fsys_garbage).
Proof. repeat split; evaluate. Qed.

(** ** The storages *)

Lemma String_length_append (s1 s2 : string) :
  String.length (s1 +:+ s2) = (String.length s1 + String.length s2)%nat.
Proof. induction s1 as [|c s1 IH]; simpl; [done | by rewrite IH]. Qed.

(** The lock file is a sibling of the data file, never the data file. *)
Lemma lock_path_neq (fs : FileStorage) : lock_path fs ≠ path fs.
Proof.
  unfold lock_path. intros Heq.
  apply (f_equal String.length) in Heq.
  rewrite String_length_append in Heq. simpl in Heq. lia.
Qed.

Lemma FileStorage_Read_absent (fs : FileStorage) :
  files (fsys fs) !! path fs = None →
  Read fs = (Err (ErrNotExist (path fs)), fs).
Proof.
  intros Habsent. cbn. unfold FileStorage_Read, ioutil_ReadFile.
  by rewrite Habsent.
Qed.

(** C6 (as stated, refuted): on a file system without the data file,
    [FileStorage.Read] returns the not-exist error of [ioutil.ReadFile],
    not empty bytes. *)
Lemma FileStorage_Read_absent_is_error :
  Read (NewFileStorage "ks.json" fsys_empty)
    = (Err (ErrNotExist "ks.json"), NewFileStorage "ks.json" fsys_empty)
  ∧ Read (NewFileStorage "ks.json" fsys_empty)
    ≠ (Ok [], NewFileStorage "ks.json" fsys_empty).
Proof. split; [reflexivity | discriminate]. Qed.

(** C6 (amended): [FileStorage.Read] on an absent file returns an error
    that [os.IsNotExist] recognises; [MemStorage.Read] never fails; and it
    is [NewKeyStore] that turns such an error of [Read] into an empty blob
    and opens an empty store, for every storage, in particular for a
    [FileStorage] whose file does not exist yet. *)
Theorem Read_absent_handled_by_NewKeyStore {json : Json} :
  (∀ fs : FileStorage,
     files (fsys fs) !! path fs = None →
     ∃ e, Read fs = (Err e, fs) ∧ os_IsNotExist (Some e) = true)
  ∧ (∀ ms : MemStorage, Read ms = (Ok ms, ms))
  ∧ (∀ (S : Type) (stg : Storage S) (st st1 st2 : S) prm e,
       Lock st = (None, st1) → Read st1 = (Err e, st2) →
       os_IsNotExist (Some e) = true →
       NewKeyStore st prm =
         (Ok {| storage := st2; params := prm;
                encryptedKeys := ∅; cache := ∅ |}, st2))
  ∧ (∀ (p : string) (fs : FileSystem) prm,
       files fs !! p = None →
       ∃ st', NewKeyStore (NewFileStorage p fs) prm =
                (Ok {| storage := st'; params := prm;
                       encryptedKeys := ∅; cache := ∅ |}, st')
              ∧ lock st' = true
              ∧ files (fsys st') !! p = None).
Proof.
  split.
  { intros fs Habsent. exists (ErrNotExist (path fs)).
    split; [by apply FileStorage_Read_absent | done]. }
  split; [done|].
  split; [intros; by apply NewKeyStore_not_exist with st1 e|].
  intros p fs prm Habsent.
  set (st := NewFileStorage p fs).
  set (st1 := (Lock st).2).
  assert (Hpath : path st1 = p) by done.
  assert (Hstill : files (fsys st1) !! path st1 = None).
  { rewrite Hpath. subst st1. cbn. unfold FileStorage_Lock. cbn.
    destruct (files fs !! lock_path st); cbn; [done|].
    rewrite lookup_insert_ne; [done|]. apply (lock_path_neq st). }
  exists st1. split; [|split; [done|by rewrite <- Hpath]].
  apply NewKeyStore_not_exist with st1 (ErrNotExist p); [done| |done].
  rewrite <- Hpath. by apply FileStorage_Read_absent.
Qed.

(** C6 on the empty file system: the store is opened, empty, with the lock
    file created and the data file still absent. *)
Example NewKeyStore_missing_file :
  NewKeyStore (json := toy_Json) (NewFileStorage "ks.json" fsys_empty)
    LightKeyStoreParams
  = (Ok {| storage := {| path := "ks.json"; lock := true;
                         fsys := {| files := {[ "ks.json.lock" := [] ]};
                                    space := None |} |};
           params := LightKeyStoreParams; encryptedKeys := ∅; cache := ∅ |},
     {| path := "ks.json"; lock := true;
        fsys := {| files := {[ "ks.json.lock" := [] ]}; space := None |} |}).
Proof. evaluate. Qed.

(** What [ioutil.WriteFile] leaves in the file system. *)
Lemma ioutil_WriteFile_spec (p : string) (data : bytes) (fs : FileSystem) :
  ∃ written,
    files (ioutil_WriteFile p data fs).2 !! p = Some written
    ∧ ((ioutil_WriteFile p data fs).1 = None → written = data)
    ∧ ((ioutil_WriteFile p data fs).1 ≠ None →
         ∃ k, space fs = Some k ∧ (k < length data)%nat ∧ written = take k data)
    ∧ (∀ q, q ≠ p → files (ioutil_WriteFile p data fs).2 !! q = files fs !! q).
Proof.
  unfold ioutil_WriteFile.
  destruct (space fs) as [k|]; [destruct (decide (length data ≤ k)%nat)|]; cbn.
  - exists data. rewrite lookup_insert_eq. repeat split; [done|].
    intros q Hq. by rewrite !lookup_insert_ne.
  - exists (take k data). rewrite lookup_insert_eq.
    split; [done|]. split; [done|]. split.
    + intros _. exists k. split; [done|]. split; [lia|done].
    + intros q Hq. by rewrite !lookup_insert_ne.
  - exists data. rewrite lookup_insert_eq. repeat split; [done|].
    intros q Hq. by rewrite !lookup_insert_ne.
Qed.

(** C4 (as stated, refuted): the device accepts two more bytes; writing
    four bytes over the old three-byte content fails and leaves two bytes
    of the new content in the data file, which is neither the full old nor
    the full new content. *)
Lemma FileStorage_Write_partial_failure :
  Write new_content {| path := "ks.json"; lock := true; fsys := fsys_nearly_full |}
    = (Some (ErrExternal "io" "short write"),
       {| path := "ks.json"; lock := true;
          fsys := {| files := {[ "ks.json" := [x04; x05] ]};
                     space := Some 0%nat |} |})
  ∧ [x04; x05] ≠ old_content
  ∧ [x04; x05] ≠ new_content.
Proof. split; [evaluate|]. split; discriminate. Qed.

(** C4 (amended): [FileStorage.Write] writes in place.  The data file is
    truncated and the data written into it: after a successful write it
    holds exactly the new data; after a failed one it holds the bytes the
    device took, a proper prefix of the new data, and the old content is
    gone.  No other path is written: there is no temporary file and no
    rename. *)
Theorem FileStorage_Write_in_place (fs : FileStorage) (data : bytes) :
  ∃ written,
    files (fsys (Write data fs).2) !! path fs = Some written
    ∧ ((Write data fs).1 = None → written = data)
    ∧ ((Write data fs).1 ≠ None →
         ∃ k, space (fsys fs) = Some k ∧ (k < length data)%nat
              ∧ written = take k data)
    ∧ (∀ q, q ≠ path fs →
         files (fsys (Write data fs).2) !! q = files (fsys fs) !! q)
    ∧ path (Write data fs).2 = path fs
    ∧ lock (Write data fs).2 = lock fs.
Proof.
  destruct (ioutil_WriteFile_spec (path fs) data (fsys fs))
    as (written & Hfile & Hok & Hfail & Hframe).
  cbn. unfold FileStorage_Write.
  destruct (ioutil_WriteFile (path fs) data (fsys fs)) as [err fsys'] eqn:Hw.
  cbn in *. exists written. repeat split; done.
Qed.

(** ** [Keys] and [ImportKey] *)

Lemma elem_of_Keys {S} (ks : KeyStore S) (k : bytes) :
  k ∈ Keys ks ↔ is_Some (encryptedKeys ks !! k).
Proof.
  unfold Keys. rewrite list_elem_of_fmap. split.
  - intros ([k' rec] & -> & Hin). exists rec. by apply elem_of_map_to_list.
  - intros [rec Hrec]. exists (k, rec). split; [done|].
    by apply elem_of_map_to_list.
Qed.

Lemma NoDup_Keys {S} (ks : KeyStore S) : NoDup (Keys ks).
Proof. apply NoDup_fst_map_to_list. Qed.

Lemma elem_of_Keys_insert {S} (ks ks' : KeyStore S) pk rec k :
  encryptedKeys ks' = <[pk := rec]> (encryptedKeys ks) →
  k ∈ Keys ks' ↔ k = pk ∨ k ∈ Keys ks.
Proof.
  intros Hins. rewrite !elem_of_Keys, Hins.
  destruct (decide (pk = k)) as [->|Hne].
  - rewrite lookup_insert_eq. split; [by left | by eexists].
  - rewrite lookup_insert_ne by done.
    split; [intros ?; by right | intros [->|?]; done].
Qed.

Section ImportKeyFacts.
Context {xcrypto : XCrypto} {iden3 : Iden3Crypto} {json : Json}.
Context {S : Type} {stg : Storage S}.

(** C2 (amended): a failure of [ImportKey] is one of two kinds.  When
    [EncryptData] fails (key derivation error, or the panic on exhausted
    entropy), the store is unchanged and [Keys] returns the same keys.  When
    [json.Marshal] or [storage.Write] fails, the record was already put in
    the map of the store and stays there: [Keys] then returns the imported
    public key besides the keys it returned before. *)
Theorem ImportKey_failure (ks ks' : KeyStore S) (sk pass : bytes)
    (rnd rnd' : RandReader) (out : outcome (result bytes)) :
  ImportKey ks sk pass rnd = (out, ks', rnd') →
  (∀ pubCompressed, out ≠ Return (Ok pubCompressed)) →
  ((∀ encryptedKey,
      (EncryptData sk pass (ScryptN (params ks)) (ScryptP (params ks)) rnd).1
        ≠ Return (Ok encryptedKey))
   ∧ ks' = ks
   ∧ ∀ k, k ∈ Keys ks' ↔ k ∈ Keys ks)
  ∨ (∃ encryptedKey e,
       (EncryptData sk pass (ScryptN (params ks)) (ScryptP (params ks)) rnd).1
         = Return (Ok encryptedKey)
       ∧ out = Return (Err e)
       ∧ (json_Marshal (<[Point_Compress (PrivKey_Pub sk) := encryptedKey]>
                          (encryptedKeys ks)) = Err e
          ∨ ∃ encryptedKeysJSON,
              json_Marshal (<[Point_Compress (PrivKey_Pub sk) := encryptedKey]>
                              (encryptedKeys ks)) = Ok encryptedKeysJSON
              ∧ (Write encryptedKeysJSON (storage ks)).1 = Some e)
       ∧ encryptedKeys ks' =
           <[Point_Compress (PrivKey_Pub sk) := encryptedKey]> (encryptedKeys ks)
       ∧ ∀ k, k ∈ Keys ks' ↔ k = Point_Compress (PrivKey_Pub sk) ∨ k ∈ Keys ks).
Proof.
  unfold ImportKey. intros Hrun Hfail.
  destruct (EncryptData sk pass _ _ rnd) as [[[rec|e]|msg] rnd1] eqn:Henc.
  - right. cbn [fst].
    destruct (json_Marshal _) as [js|e] eqn:Hjs; cbn [encryptedKeys set_encryptedKeys] in Hjs.
    + cbn [storage set_encryptedKeys] in Hrun.
      destruct (Write js (storage ks)) as [[e|] st'] eqn:Hw.
      * injection Hrun as <- <- <-. exists rec, e.
        split; [done|]. split; [done|]. split.
        { right. exists js. by rewrite Hw. }
        split; [done|]. intros k. by apply (elem_of_Keys_insert ks _ _ rec).
      * injection Hrun as <- <- <-. exfalso.
        by apply (Hfail (Point_Compress (PrivKey_Pub sk))).
    + injection Hrun as <- <- <-. exists rec, e.
      split; [done|]. split; [done|]. split; [by left|].
      split; [done|]. intros k. by apply (elem_of_Keys_insert ks _ _ rec).
  - left. injection Hrun as <- <- <-. done.
  - left. injection Hrun as <- <- <-. done.
Qed.
End ImportKeyFacts.

(** C2 (as stated, refuted): the empty store over a file on the nearly
    full device.  [storage.Write] fails, [ImportKey] returns its error, and
    [Keys] returns the imported public key although it returned no key
    before the call. *)
Lemma ImportKey_failed_Write_keeps_record :
  Keys ks_nearly_full = []
  ∧ ∃ ks',
      ImportKey (xcrypto := toy_XCrypto) (iden3 := toy_Iden3Crypto)
        (json := toy_Json) ks_nearly_full secret32 pass_abc rnd56
      = (Return (Err (ErrExternal "io" "short write")), ks', [])
      ∧ Keys ks' = [reverse secret32].
Proof.
  split; [evaluate|].
  eexists. split; evaluate.
Qed.

(** C2 (amended) on the same run. *)
Lemma ImportKey_failure_witness :
  ∃ ks',
    ImportKey (xcrypto := toy_XCrypto) (iden3 := toy_Iden3Crypto)
      (json := toy_Json) ks_nearly_full secret32 pass_abc rnd56
    = (Return (Err (ErrExternal "io" "short write")), ks', [])
    ∧ ∀ k, k ∈ Keys ks' ↔ k = reverse secret32 ∨ k ∈ Keys ks_nearly_full.
Proof.
  eexists. split; [evaluate|].
  match goal with
  | |- ∀ k, k ∈ Keys ?ks' ↔ _ =>
    destruct (ImportKey_failure (xcrypto := toy_XCrypto)
                (iden3 := toy_Iden3Crypto) (json := toy_Json)
                ks_nearly_full ks' secret32 pass_abc rnd56 []
                (Return (Err (ErrExternal "io" "short write"))))
      as [(Henc & _) | (rec & e & _ & _ & _ & _ & Hkeys)]
  end.
  - evaluate.
  - discriminate.
  - exfalso. eapply Henc. evaluate.
  - exact Hkeys.
Defined.

(** ** Verification *)

Section Verify.
Context {iden3 : Iden3Crypto}.

(** An error of [VerifySignatureElem] is the error of one of the two
    decompressions, and comes with [false]. *)
Lemma VerifySignatureElem_error pkComp msg sigComp b e :
  VerifySignatureElem pkComp msg sigComp = (b, Some e) →
  b = false
  ∧ (Point_Decompress pkComp = Err e
     ∨ (∃ pkPoint, Point_Decompress pkComp = Ok pkPoint)
       ∧ Signature_Decompress sigComp = Err e).
Proof.
  unfold VerifySignatureElem.
  destruct (Point_Decompress pkComp) as [pkPoint|e1].
  - destruct (Signature_Decompress sigComp) as [sig|e2]; [done|].
    intros [= <- <-]. split; [done|]. right. split; [by eexists | done].
  - intros [= <- <-]. split; [done | by left].
Qed.

(** C9: for a public key and a signature that decompress, a signature that
    does not verify makes [VerifySignatureElem] and [VerifySignature] return
    [false] and no error; and whenever either returns an error, it is the
    error of decompressing the point or the signature. *)
Theorem VerifySignature_invalid_is_false_not_error
    (pkComp sigComp : bytes) (pkPoint : Point) (sig : Signature) :
  Point_Decompress pkComp = Ok pkPoint →
  Signature_Decompress sigComp = Ok sig →
  (∀ msg : Z, PubKey_VerifyMimc7 pkPoint msg sig = false →
     VerifySignatureElem pkComp msg sigComp = (false, None))
  ∧ (∀ msg : bytes, PubKey_VerifyMimc7 pkPoint (mimc7HashBytes msg) sig = false →
       VerifySignature pkComp msg sigComp = (false, None))
  ∧ (∀ (msg : Z), (VerifySignatureElem pkComp msg sigComp).2 = None)
  ∧ (∀ (msg : bytes), (VerifySignature pkComp msg sigComp).2 = None)
  ∧ (∀ pkComp' (msg : Z) sigComp' b e,
       VerifySignatureElem pkComp' msg sigComp' = (b, Some e) →
       b = false
       ∧ (Point_Decompress pkComp' = Err e ∨ Signature_Decompress sigComp' = Err e))
  ∧ (∀ pkComp' (msg : bytes) sigComp' b e,
       VerifySignature pkComp' msg sigComp' = (b, Some e) →
       b = false
       ∧ (Point_Decompress pkComp' = Err e ∨ Signature_Decompress sigComp' = Err e)).
Proof.
  intros Hpk Hsig.
  assert (Helem : ∀ msg, VerifySignatureElem pkComp msg sigComp
                         = (PubKey_VerifyMimc7 pkPoint msg sig, None)).
  { intros msg. unfold VerifySignatureElem. by rewrite Hpk, Hsig. }
  assert (Herr : ∀ pkComp' (msg : Z) sigComp' b e,
            VerifySignatureElem pkComp' msg sigComp' = (b, Some e) →
            b = false
            ∧ (Point_Decompress pkComp' = Err e
               ∨ Signature_Decompress sigComp' = Err e)).
  { intros ????? (-> & [?|[_ ?]])%VerifySignatureElem_error; auto. }
  split; [intros msg Hv; by rewrite Helem, Hv|].
  split; [intros msg Hv; unfold VerifySignature; by rewrite Helem, Hv|].
  split; [intros msg; by rewrite Helem|].
  split; [intros msg; unfold VerifySignature; by rewrite Helem|].
  split; [exact Herr|].
  intros pkComp' msg sigComp' b e. unfold VerifySignature. apply Herr.
Qed.
End Verify.

(** C9 with the toy curve: the public key of [secret32] and a well-formed
    signature of another message. *)
Lemma VerifySignature_invalid_is_false_not_error_witness :
  VerifySignatureElem (iden3 := toy_Iden3Crypto)
    (reverse secret32) 7 (toy_Sign secret32 8) = (false, None)
  ∧ VerifySignature (iden3 := toy_Iden3Crypto)
      (reverse secret32) pass_abc (toy_Sign secret32 8) = (false, None)
  ∧ VerifySignatureElem (iden3 := toy_Iden3Crypto)
      (reverse secret32) 8 (toy_Sign secret32 8) = (true, None)
  ∧ VerifySignatureElem (iden3 := toy_Iden3Crypto)
      (reverse secret32) 8 short3
    = (false, Some (ErrExternal "babyjub" "invalid compressed encoding")).
Proof.
  destruct (VerifySignature_invalid_is_false_not_error (iden3 := toy_Iden3Crypto)
              (reverse secret32) (toy_Sign secret32 8)
              (reverse secret32) (toy_Sign secret32 8))
    as (Helem & Hbytes & _).
  - evaluate.
  - evaluate.
  - split; [apply Helem; evaluate|].
    split; [apply Hbytes; evaluate|].
    split; evaluate.
Defined.

(** ** [Hex] and [hex32] *)

Lemma length_hex_EncodeToString src :
  length (hex_EncodeToString src) = (2 * length src)%nat.
Proof.
  unfold hex_EncodeToString. induction src as [|v src IH]; [done|].
  cbn [mbind list_bind]. rewrite length_app, IH. simpl. lia.
Qed.

(** The two digits of a byte decode to the byte. *)
Lemma fromHexChar_hex_digit (v : byte) :
  fromHexChar (hex_digit (N.shiftr (Byte.to_N v) 4)) = Some (N.shiftr (Byte.to_N v) 4)
  ∧ fromHexChar (hex_digit (N.land (Byte.to_N v) 15)) = Some (N.land (Byte.to_N v) 15)
  ∧ Byte.of_N (N.lor (N.shiftl (N.shiftr (Byte.to_N v) 4) 4) (N.land (Byte.to_N v) 15))
    = Some v.
Proof. destruct v; repeat split; vm_compute; reflexivity. Qed.

Lemma hex_Decode_from_encoded (src dst : bytes) (i : nat) :
  (i + length src ≤ length dst)%nat →
  hex_Decode_from dst i (hex_EncodeToString src)
  = (Return ((i + length src)%nat, None),
     take i dst ++ src ++ drop (i + length src) dst).
Proof.
  revert dst i. induction src as [|v src IH]; intros dst i Hlen.
  - cbn. rewrite Nat.add_0_r, take_drop. done.
  - unfold hex_EncodeToString. cbn [mbind list_bind app].
    fold (hex_EncodeToString src). cbn [hex_Decode_from].
    destruct (fromHexChar_hex_digit v) as (-> & -> & ->). cbn [default].
    cbn [length] in Hlen.
    rewrite decide_True by lia.
    rewrite IH by (rewrite length_insert; lia).
    f_equal; [do 2 f_equal; cbn [length]; lia|].
    rewrite (take_S_r _ _ v) by (apply list_lookup_insert_eq; lia).
    rewrite take_insert_ge by lia.
    rewrite drop_insert_lt by lia.
    cbn [length]. rewrite <- app_assoc. cbn [app].
    by replace (S i + length src)%nat with (i + S (length src))%nat by lia.
Qed.

Lemma hex_Decode_from_valid (n : nat) (h dst : bytes) (i : nat) :
  Forall (λ c, is_Some (fromHexChar c)) h →
  length h = (2 * n)%nat →
  (i + n ≤ length dst)%nat →
  ∃ decoded,
    length decoded = n
    ∧ hex_Decode_from dst i h
      = (Return ((i + n)%nat, None), take i dst ++ decoded ++ drop (i + n) dst).
Proof.
  revert h dst i. induction n as [|n IH]; intros h dst i Hhex Hlen Hfit.
  - destruct h; [|done]. exists []. split; [done|].
    cbn. by rewrite Nat.add_0_r, take_drop.
  - destruct h as [|p [|q rest]]; [cbn in Hlen; lia..|].
    apply Forall_cons in Hhex as [[a Ha] Hhex].
    apply Forall_cons in Hhex as [[b Hb] Hhex].
    cbn [hex_Decode_from]. rewrite Ha, Hb.
    rewrite decide_True by lia.
    set (x := default x00 (Byte.of_N (N.lor (N.shiftl a 4) b))).
    destruct (IH rest (<[i := x]> dst) (S i)) as (decoded & Hdl & Hrun).
    + done.
    + cbn [length] in Hlen. lia.
    + rewrite length_insert. lia.
    + exists (x :: decoded). split; [cbn; lia|].
      rewrite Hrun.
      rewrite (take_S_r _ _ x) by (apply list_lookup_insert_eq; lia).
      rewrite take_insert_ge by lia.
      rewrite drop_insert_lt by lia.
      rewrite <- app_assoc. cbn [app].
      by replace (S i + n)%nat with (i + S n)%nat by lia.
Qed.

Lemma hex_Decode_from_overflow (k : nat) (h dst : bytes) (i : nat) :
  Forall (λ c, is_Some (fromHexChar c)) h →
  (i + k = length dst)%nat →
  (2 * k + 2 ≤ length h)%nat →
  (hex_Decode_from dst i h).1 = Panic "index out of range".
Proof.
  revert h dst i. induction k as [|k IH]; intros h dst i Hhex Hfit Hlen;
    (destruct h as [|p [|q rest]]; [cbn in Hlen; lia..|]);
    apply Forall_cons in Hhex as [[a Ha] Hhex];
    apply Forall_cons in Hhex as [[b Hb] Hhex];
    cbn [hex_Decode_from]; rewrite Ha, Hb.
  - by rewrite decide_False by lia.
  - rewrite decide_True by lia. apply IH; [done| |].
    + rewrite length_insert. lia.
    + cbn [length] in Hlen. lia.
Qed.

Lemma Forall_hex_EncodeToString src :
  Forall (λ c, is_Some (fromHexChar c)) (hex_EncodeToString src).
Proof.
  unfold hex_EncodeToString. induction src as [|v src IH]; [constructor|].
  cbn [mbind list_bind app].
  destruct (fromHexChar_hex_digit v) as (Hhi & Hlo & _).
  constructor; [by eexists|]. constructor; [by eexists|]. exact IH.
Qed.

(** X1: [Hex] round trip: the text that [MarshalText] (and [String]) makes of
    any byte slice is decoded by [UnmarshalText], without error, to that
    slice. *)
Theorem Hex_UnmarshalText_MarshalText (buf : bytes) :
  ∃ text,
    Hex_MarshalText buf = Ok text
    ∧ Hex_String buf = text
    ∧ length text = (2 * length buf)%nat
    ∧ Hex_UnmarshalText text = (Return None, buf).
Proof.
  exists (hex_EncodeToString buf). split; [done|]. split; [done|].
  split; [apply length_hex_EncodeToString|].
  unfold Hex_UnmarshalText, hex_Decode, hex_DecodedLen.
  rewrite length_hex_EncodeToString.
  replace (2 * length buf / 2)%nat with (length buf)
    by (symmetry; rewrite Nat.mul_comm; apply Nat.div_mul; lia).
  rewrite hex_Decode_from_encoded by (rewrite length_zero; lia).
  cbn [take app Nat.add]. rewrite drop_ge by (rewrite length_zero; lia).
  by rewrite app_nil_r.
Qed.

(** X2: [hex32] round trip: the text of a 32-byte array is decoded into any
    32-byte receiver as that array. *)
Theorem hex32_UnmarshalText_MarshalText (buf old text : bytes) :
  length buf = 32%nat → length old = 32%nat →
  hex32_MarshalText buf = Ok text →
  hex32_UnmarshalText old text = (Return None, buf).
Proof.
  intros Hbuf Hold [= <-]. unfold hex32_UnmarshalText, hex_Decode.
  rewrite hex_Decode_from_encoded by lia.
  cbn [take app Nat.add]. rewrite drop_ge by lia. by rewrite app_nil_r.
Qed.

Lemma hex32_UnmarshalText_MarshalText_witness :
  hex32_MarshalText secret32 = Ok (hex_EncodeToString secret32)
  ∧ hex32_UnmarshalText (zero 32) (hex_EncodeToString secret32)
    = (Return None, secret32).
Proof.
  split; [reflexivity|].
  apply (hex32_UnmarshalText_MarshalText secret32 (zero 32)); reflexivity.
Defined.

(** X3: [hex32.UnmarshalText] does not check the length of the text: a valid
    text of [n <= 32] bytes is accepted, overwrites the first [n] bytes of
    the receiver and leaves the other bytes as they were. *)
Theorem hex32_UnmarshalText_short (buf h : bytes) (n : nat) :
  length buf = 32%nat →
  Forall (λ c, is_Some (fromHexChar c)) h →
  length h = (2 * n)%nat →
  (n ≤ 32)%nat →
  ∃ decoded,
    length decoded = n
    ∧ hex32_UnmarshalText buf h = (Return None, decoded ++ drop n buf).
Proof.
  intros Hbuf Hhex Hlen Hn.
  destruct (hex_Decode_from_valid n h buf 0 Hhex Hlen) as (decoded & Hdl & Hrun);
    [lia|].
  exists decoded. split; [done|].
  unfold hex32_UnmarshalText, hex_Decode. by rewrite Hrun.
Qed.

Lemma hex32_UnmarshalText_short_witness :
  (∃ decoded,
     length decoded = 2%nat
     ∧ hex32_UnmarshalText secret32 ["0"; "a"; "F"; "f"]%byte
       = (Return None, decoded ++ drop 2 secret32))
  ∧ hex32_UnmarshalText secret32 ["0"; "a"; "F"; "f"]%byte
    = (Return None, [x0a; xff] ++ drop 2 secret32).
Proof.
  split; [|evaluate].
  apply hex32_UnmarshalText_short.
  - reflexivity.
  - repeat constructor; by eexists.
  - reflexivity.
  - lia.
Defined.

(** X4: [hex32.UnmarshalText] panics on a text of more than 32 bytes: the
    thirty-third decoded byte is stored past the end of the array. *)
Theorem hex32_UnmarshalText_long_panics (buf h : bytes) :
  length buf = 32%nat →
  Forall (λ c, is_Some (fromHexChar c)) h →
  (66 ≤ length h)%nat →
  (hex32_UnmarshalText buf h).1 = Panic "index out of range".
Proof.
  intros Hbuf Hhex Hlen.
  pose proof (hex_Decode_from_overflow 32 h buf 0 Hhex) as Hrun.
  unfold hex32_UnmarshalText, hex_Decode.
  destruct (hex_Decode_from buf 0 h) as [[[n err]|msg] buf'];
    cbn [fst] in *.
  - discriminate Hrun; lia.
  - assert (Hmsg : Panic (A := nat * option error) msg = Panic "index out of range")
      by (apply Hrun; lia).
    by injection Hmsg as ->.
Qed.

Lemma hex32_UnmarshalText_long_panics_witness :
  (hex32_UnmarshalText (zero 32) (hex_EncodeToString (bytes_of_nats (seq 1 33)))).1
  = Panic "index out of range".
Proof.
  apply hex32_UnmarshalText_long_panics.
  - reflexivity.
  - apply Forall_hex_EncodeToString.
  - rewrite length_hex_EncodeToString. vm_compute. lia.
Defined.

Lemma hex_Decode_from_total (n : nat) (h dst : bytes) (i : nat) :
  (length h ≤ 2 * n + 1)%nat →
  (i + length h / 2 ≤ length dst)%nat →
  ∃ k err dst',
    hex_Decode_from dst i h = (Return (k, err), dst')
    ∧ (err = None ↔
       Forall (λ c, is_Some (fromHexChar c)) h ∧ Nat.even (length h) = true).
Proof.
  revert h dst i. induction n as [|n IH]; intros h dst i Hlen Hfit.
  - destruct h as [|p [|q rest]]; [| |cbn in Hlen; lia].
    + exists i, None, dst. split; [done|]. split; [by split|done].
    + cbn [hex_Decode_from].
      destruct (fromHexChar p); eexists _, _, _; (split; [done|]);
        (split; [done|]); by intros [_ ?].
  - destruct h as [|p [|q rest]].
    + exists i, None, dst. split; [done|]. split; [by split|done].
    + cbn [hex_Decode_from].
      destruct (fromHexChar p); eexists _, _, _; (split; [done|]);
        (split; [done|]); by intros [_ ?].
    + cbn [hex_Decode_from]. cbn [length] in Hlen, Hfit.
      assert (Hdiv : (S (S (length rest)) / 2 = S (length rest / 2))%nat).
      { replace (S (S (length rest))) with (1 * 2 + length rest)%nat by lia.
        rewrite Nat.div_add_l by lia. lia. }
      rewrite Hdiv in Hfit.
      destruct (fromHexChar p) as [a|] eqn:Hp.
      2: { eexists _, _, _. split; [done|]. split; [done|].
           intros [Hhex _]. apply Forall_cons in Hhex as [[? Hc] _].
           rewrite Hp in Hc. done. }
      destruct (fromHexChar q) as [b|] eqn:Hq.
      2: { eexists _, _, _. split; [done|]. split; [done|].
           intros [Hhex _]. apply Forall_cons in Hhex as [_ Hhex].
           apply Forall_cons in Hhex as [[? Hc] _].
           rewrite Hq in Hc. done. }
      rewrite decide_True by lia.
      destruct (IH rest
                  (<[i := default x00 (Byte.of_N (N.lor (N.shiftl a 4) b))]> dst)
                  (S i)) as (k & err & dst' & Hrun & Hiff).
      * lia.
      * rewrite length_insert. lia.
      * exists k, err, dst'. split; [done|]. rewrite Hiff.
        cbn [length Nat.even]. split.
        -- intros [Hhex Heven]. split; [|done].
           constructor; [by eexists|]. constructor; [by eexists|]. done.
        -- intros [Hhex Heven]. split; [|done].
           apply Forall_cons in Hhex as [_ Hhex].
           by apply Forall_cons in Hhex as [_ Hhex].
Qed.

(** X5: [Hex.UnmarshalText] never panics, and it returns [nil] exactly on the
    texts of even length that hold nothing but hex digits (of either
    case); on every other text it returns an error. *)
Theorem Hex_UnmarshalText_total (h : bytes) :
  ∃ err buf,
    Hex_UnmarshalText h = (Return err, buf)
    ∧ (err = None ↔
       Forall (λ c, is_Some (fromHexChar c)) h ∧ Nat.even (length h) = true).
Proof.
  destruct (hex_Decode_from_total (length h) h
              (zero (hex_DecodedLen (length h))) 0)
    as (k & err & dst' & Hrun & Hiff).
  - lia.
  - rewrite length_zero. unfold hex_DecodedLen. lia.
  - exists err, dst'. split; [|done].
    unfold Hex_UnmarshalText, hex_Decode. by rewrite Hrun.
Qed.

(** ** The storages, as stores of one blob *)

(** X6: What [Write] stored without error, [Read] returns, in both
    realizations; [Read] itself changes nothing. *)
Theorem FileStorage_Read_after_Write (fs fs' : FileStorage) (data : bytes) :
  Write data fs = (None, fs') →
  Read fs' = (Ok data, fs')
  ∧ path fs' = path fs ∧ lock fs' = lock fs
  ∧ ∀ (ms : MemStorage), Read (Write data ms).2 = (Ok data, (Write data ms).2).
Proof.
  intros Hw. cbn in Hw. unfold FileStorage_Write in Hw.
  destruct (ioutil_WriteFile_spec (path fs) data (fsys fs))
    as (written & Hfile & Hok & _).
  destruct (ioutil_WriteFile (path fs) data (fsys fs)) as [err fsys'].
  injection Hw as -> <-. cbn [fst snd] in *.
  repeat split.
  cbn. unfold FileStorage_Read, ioutil_ReadFile. cbn [path fsys].
  by rewrite Hfile, (Hok eq_refl).
Qed.

Lemma FileStorage_Read_after_Write_witness :
  Write new_content fs_open
  = (None, {| path := "ks.json"; lock := true;
              fsys := {| files := {[ "ks.json" := new_content;
                                     "ks.json.lock" := [] ]};
                         space := None |} |})
  ∧ Read {| path := "ks.json"; lock := true;
            fsys := {| files := {[ "ks.json" := new_content;
                                   "ks.json.lock" := [] ]};
                       space := None |} |}
    = (Ok new_content,
       {| path := "ks.json"; lock := true;
          fsys := {| files := {[ "ks.json" := new_content;
                                 "ks.json.lock" := [] ]};
                     space := None |} |}).
Proof.
  assert (Hw : Write new_content fs_open
               = (None, {| path := "ks.json"; lock := true;
                           fsys := {| files := {[ "ks.json" := new_content;
                                                  "ks.json.lock" := [] ]};
                                      space := None |} |})) by evaluate.
  split; [exact Hw|].
  exact (proj1 (FileStorage_Read_after_Write _ _ _ Hw)).
Defined.

(** X7: [FileStorage.Lock] makes the lock file and touches no other path;
    [Unlock] then removes it, so that the file system is as before the
    lock when the lock file was not there; a further [Unlock] fails with
    the not-exist error of [os.Remove]. *)
Theorem FileStorage_Lock_Unlock (fs : FileStorage) :
  files (fsys fs) !! lock_path fs = None →
  (Lock fs).1 = None
  ∧ files (fsys (Lock fs).2) !! lock_path fs = Some []
  ∧ (∀ q, q ≠ lock_path fs →
       files (fsys (Lock fs).2) !! q = files (fsys fs) !! q)
  ∧ Unlock (Lock fs).2
    = (None, {| path := path fs; lock := false; fsys := fsys fs |})
  ∧ Unlock (Unlock (Lock fs).2).2
    = (Some (ErrNotExist (lock_path fs)),
       {| path := path fs; lock := false; fsys := fsys fs |}).
Proof.
  intros Habsent.
  cbn [Lock Unlock FileStorage_Storage].
  unfold FileStorage_Lock. rewrite Habsent. cbn [fst snd fsys files].
  split; [done|].
  split; [by rewrite lookup_insert_eq|].
  split; [intros q Hq; by rewrite lookup_insert_ne|].
  unfold FileStorage_Unlock, os_Remove, lock_path.
  cbn [path fsys files space lock fst snd].
  fold (lock_path fs). rewrite lookup_insert_eq.
  rewrite delete_insert_id by done.
  cbn [path fsys files space lock fst snd]. fold (lock_path fs).
  rewrite Habsent. by destruct fs as [? ? [? ?]].
Qed.

Lemma FileStorage_Lock_Unlock_witness :
  Lock (NewFileStorage "ks.json" fsys_garbage)
  = (None, {| path := "ks.json"; lock := true;
              fsys := {| files := {[ "ks.json" := ["x"%byte];
                                     "ks.json.lock" := [] ]};
                         space := None |} |})
  ∧ Unlock (Lock (NewFileStorage "ks.json" fsys_garbage)).2
    = (None, NewFileStorage "ks.json" fsys_garbage)
  ∧ Unlock (NewFileStorage "ks.json" fsys_garbage)
    = (Some (ErrNotExist "ks.json.lock"), NewFileStorage "ks.json" fsys_garbage).
Proof.
  destruct (FileStorage_Lock_Unlock (NewFileStorage "ks.json" fsys_garbage))
    as (_ & _ & _ & Hunlock & _); [evaluate|].
  split; [evaluate|]. split; [exact Hunlock | evaluate].
Defined.

(** ** The toy document format *)

Lemma digits_to_positive_to_digits (p : positive) :
  digits_to_positive (positive_to_digits p) = Some p.
Proof.
  induction p as [p IH|p IH|]; cbn; [| |done]; rewrite IH; cbn.
  - rewrite decide_False by done. by rewrite decide_True.
  - by rewrite decide_True.
Qed.

Lemma toy_Json_digits_roundtrip (m : gmap bytes EncryptedData) (js : bytes) :
  json_Marshal (Json := toy_Json_digits) m = Ok js →
  js ≠ [] ∧ json_Unmarshal (Json := toy_Json_digits) js = Ok m.
Proof.
  intros [= <-]. split; [done|]. cbn.
  rewrite decide_True by done. rewrite digits_to_positive_to_digits. cbn.
  by rewrite decode_encode.
Qed.

(** ** [ImportKey], when it succeeds *)

Section ImportKeySuccess.
Context {xcrypto : XCrypto} {iden3 : Iden3Crypto} {json : Json}.
Context {S : Type} {stg : Storage S}.

Lemma ImportKey_Ok (ks ks' : KeyStore S) sk pass rnd rnd' pk :
  ImportKey ks sk pass rnd = (Return (Ok pk), ks', rnd') →
  ∃ encryptedKey encryptedKeysJSON,
    EncryptData sk pass (ScryptN (params ks)) (ScryptP (params ks)) rnd
      = (Return (Ok encryptedKey), rnd')
    ∧ pk = Point_Compress (PrivKey_Pub sk)
    ∧ encryptedKeys ks' = <[pk := encryptedKey]> (encryptedKeys ks)
    ∧ json_Marshal (encryptedKeys ks') = Ok encryptedKeysJSON
    ∧ Write encryptedKeysJSON (storage ks) = (None, storage ks')
    ∧ cache ks' = cache ks
    ∧ params ks' = params ks.
Proof.
  unfold ImportKey.
  destruct (EncryptData sk pass _ _ rnd) as [[[rec|e]|msg] rnd1] eqn:Henc;
    [|done..].
  destruct (json_Marshal _) as [js|e] eqn:Hjs; [|done].
  cbn [storage encryptedKeys set_encryptedKeys] in *.
  destruct (Write js (storage ks)) as [[e|] st'] eqn:Hw; [done|].
  intros [= <- <- <-]. exists rec, js. cbn. by rewrite Hw.
Qed.

(** X8: When [ImportKey] returns a public key, it is the compressed public key
    of the imported secret key; the whole updated map was serialized and
    written to the storage without error; [Keys] lists the new key beside
    the old ones; and no key was unlocked: the cache is as before. *)
Theorem ImportKey_success (ks ks' : KeyStore S) (sk pass : bytes)
    (rnd rnd' : RandReader) (pk : bytes) :
  ImportKey ks sk pass rnd = (Return (Ok pk), ks', rnd') →
  pk = Point_Compress (PrivKey_Pub sk)
  ∧ (∃ encryptedKeysJSON,
       json_Marshal (encryptedKeys ks') = Ok encryptedKeysJSON
       ∧ Write encryptedKeysJSON (storage ks) = (None, storage ks'))
  ∧ (∀ k, k ∈ Keys ks' ↔ k = pk ∨ k ∈ Keys ks)
  ∧ (∀ k, k ≠ pk → encryptedKeys ks' !! k = encryptedKeys ks !! k)
  ∧ cache ks' = cache ks
  ∧ params ks' = params ks.
Proof.
  intros (rec & js & _ & Hpk & Hmap & Hjs & Hw & Hcache & Hprm)%ImportKey_Ok.
  split; [done|]. split; [by exists js|].
  split; [intros k; by apply (elem_of_Keys_insert ks _ _ rec)|].
  split; [intros k Hk; by rewrite Hmap, lookup_insert_ne|].
  done.
Qed.

(** X9: Importing a key whose public key the store already holds replaces its
    record: [Keys] lists the same keys, each once, and no more of them. *)
Theorem ImportKey_existing_key (ks ks' : KeyStore S) (sk pass : bytes)
    (rnd rnd' : RandReader) (pk : bytes) :
  ImportKey ks sk pass rnd = (Return (Ok pk), ks', rnd') →
  pk ∈ Keys ks →
  Keys ks' ≡ₚ Keys ks ∧ NoDup (Keys ks') ∧ length (Keys ks') = length (Keys ks).
Proof.
  intros (rec & js & _ & _ & Hmap & _)%ImportKey_Ok Hin.
  assert (Hperm : Keys ks' ≡ₚ Keys ks).
  { apply NoDup_Permutation; [apply NoDup_Keys..|].
    intros k. rewrite (elem_of_Keys_insert ks ks' pk rec k Hmap).
    split; [intros [->|?]; done | by right]. }
  split; [done|]. split; [apply NoDup_Keys|]. by rewrite Hperm.
Qed.
End ImportKeySuccess.

Lemma ImportKey_success_witness :
  ∃ ks',
    ImportKey (xcrypto := toy_XCrypto) (iden3 := toy_Iden3Crypto)
      (json := toy_Json) ks_file secret32 pass_abc rnd56
    = (Return (Ok pk_secret32), ks', [])
    ∧ ∀ k, k ∈ Keys ks' ↔ k = pk_secret32 ∨ k ∈ Keys ks_file.
Proof.
  eexists. split; [evaluate|].
  match goal with
  | |- ∀ k, k ∈ Keys ?ks' ↔ _ =>
    assert (Hrun : ImportKey (xcrypto := toy_XCrypto) (iden3 := toy_Iden3Crypto)
                     (json := toy_Json) ks_file secret32 pass_abc rnd56
                   = (Return (Ok pk_secret32), ks', [])) by evaluate
  end.
  exact (proj1 (proj2 (proj2 (ImportKey_success _ _ _ _ _ _ _ Hrun)))).
Defined.

(** A store that holds a record under the toy public key of [secret32],
    into which [secret32] is imported again. *)
Lemma ImportKey_existing_key_witness :
  ∃ ks',
    ImportKey (xcrypto := toy_XCrypto) (iden3 := toy_Iden3Crypto)
      (json := toy_Json)
      (set_encryptedKeys ks_file {[ pk_secret32 := toy_record_of short3 ]})
      secret32 pass_abc rnd56
    = (Return (Ok pk_secret32), ks', [])
    ∧ Keys ks' = [pk_secret32]
    ∧ Keys ks' ≡ₚ
        Keys (set_encryptedKeys ks_file {[ pk_secret32 := toy_record_of short3 ]}).
Proof.
  eexists. split; [evaluate|]. split; [evaluate|].
  match goal with
  | |- Keys ?ks' ≡ₚ _ =>
    assert (Hrun : ImportKey (xcrypto := toy_XCrypto) (iden3 := toy_Iden3Crypto)
                     (json := toy_Json)
                     (set_encryptedKeys ks_file
                        {[ pk_secret32 := toy_record_of short3 ]})
                     secret32 pass_abc rnd56
                   = (Return (Ok pk_secret32), ks', [])) by evaluate
  end.
  refine (proj1 (ImportKey_existing_key _ _ _ _ _ _ _ Hrun _)).
  apply elem_of_Keys. eexists. evaluate.
Defined.

(** ** Persistence: import, dispose, open again *)

(** Both storages keep the blob that was written across an unlock and a
    new lock. *)
Lemma MemStorage_keeps (data : bytes) (st st' : MemStorage) :
  Write data st = (None, st') →
  ∃ st1 st2, Lock (Unlock st').2 = (None, st1) ∧ Read st1 = (Ok data, st2).
Proof. intros [= <-]. by exists data, data. Qed.

Lemma FileStorage_Write_None (data : bytes) (st st' : FileStorage) :
  Write data st = (None, st') →
  files (fsys st') !! path st' = Some data ∧ path st' = path st.
Proof.
  intros Hw. cbn in Hw. unfold FileStorage_Write in Hw.
  destruct (ioutil_WriteFile_spec (path st) data (fsys st))
    as (written & Hfile & Hok & _).
  destruct (ioutil_WriteFile (path st) data (fsys st)) as [err fsys'].
  injection Hw as -> <-. cbn [fst snd path fsys] in *.
  by rewrite Hfile, (Hok eq_refl).
Qed.

Lemma FileStorage_keeps (data : bytes) (st st' : FileStorage) :
  Write data st = (None, st') →
  ∃ st1 st2, Lock (Unlock st').2 = (None, st1) ∧ Read st1 = (Ok data, st2).
Proof.
  intros (Hfile & _)%FileStorage_Write_None.
  set (st1 := (FileStorage_Lock (FileStorage_Unlock st').2).2).
  exists st1, st1.
  assert (Hp : path st1 = path st').
  { subst st1. unfold FileStorage_Lock, FileStorage_Unlock.
    by destruct (os_Remove _ _). }
  assert (Hl : lock_path (FileStorage_Unlock st').2 = lock_path st').
  { unfold FileStorage_Unlock. by destruct (os_Remove _ _). }
  assert (Hu : files (fsys (FileStorage_Unlock st').2) !! path st' = Some data).
  { unfold FileStorage_Unlock, os_Remove.
    destruct (files (fsys st') !! lock_path st'); cbn [snd fsys files]; [|done].
    rewrite lookup_delete_ne; [done|]. apply lock_path_neq. }
  assert (Hf : files (fsys st1) !! path st' = Some data).
  { subst st1. unfold FileStorage_Lock. rewrite Hl.
    destruct (files (fsys (FileStorage_Unlock st').2) !! lock_path st');
      cbn [snd fsys files]; [done|].
    rewrite lookup_insert_ne; [done|]. apply lock_path_neq. }
  split; [reflexivity|].
  change (Read st1) with (FileStorage_Read st1).
  unfold FileStorage_Read, ioutil_ReadFile. by rewrite Hp, Hf.
Qed.

Section Persistence.
Context {xcrypto : XCrypto} {iden3 : Iden3Crypto} {json : Json}.
Context {S : Type} {stg : Storage S}.

(** The contract of [encoding/json] on [KeysStored]: a document is never
    empty and is read back as the map it was made of. *)
Hypothesis json_roundtrip : ∀ (m : gmap bytes EncryptedData) (js : bytes),
  json_Marshal m = Ok js → js ≠ [] ∧ json_Unmarshal js = Ok m.

(** The contract of the storage: after an unlock and a new lock it still
    holds the blob that was written. *)
Hypothesis storage_keeps : ∀ (data : bytes) (st st' : S),
  Write data st = (None, st') →
  ∃ st1 st2, Lock (Unlock st').2 = (None, st1) ∧ Read st1 = (Ok data, st2).

Lemma ImportKey_runs (ks : KeyStore S) sk pass rnd rnd' rec js st' :
  EncryptData sk pass (ScryptN (params ks)) (ScryptP (params ks)) rnd
    = (Return (Ok rec), rnd') →
  json_Marshal (<[Point_Compress (PrivKey_Pub sk) := rec]> (encryptedKeys ks))
    = Ok js →
  Write js (storage ks) = (None, st') →
  ImportKey ks sk pass rnd
  = (Return (Ok (Point_Compress (PrivKey_Pub sk))),
     set_storage
       (set_encryptedKeys ks
          (<[Point_Compress (PrivKey_Pub sk) := rec]> (encryptedKeys ks))) st',
     rnd').
Proof.
  intros Henc Hjs Hw. unfold ImportKey. rewrite Henc.
  cbn [encryptedKeys set_encryptedKeys storage]. by rewrite Hjs, Hw.
Qed.

(** X10: Persistence: after a successful [ImportKey] and the disposal of the
    store, [NewKeyStore] over the storage opens a store with exactly the
    same records, hence the same [Keys], and an empty cache: the unlocked
    keys are not persisted. *)
Theorem ImportKey_then_reopen (ks ks' : KeyStore S) (sk pass : bytes)
    (rnd rnd' : RandReader) (pk : bytes) (h : Heap) (prm : KeyStoreParams) :
  ImportKey ks sk pass rnd = (Return (Ok pk), ks', rnd') →
  ∃ ks2 st2,
    NewKeyStore (finalizer ks' h).1 prm = (Ok ks2, st2)
    ∧ encryptedKeys ks2 = encryptedKeys ks'
    ∧ (∀ k, k ∈ Keys ks2 ↔ k ∈ Keys ks')
    ∧ cache ks2 = ∅
    ∧ params ks2 = prm.
Proof.
  intros (rec & js & _ & _ & _ & Hjs & Hw & _)%ImportKey_Ok.
  destruct (json_roundtrip _ _ Hjs) as [Hne Hun].
  destruct (storage_keeps _ _ _ Hw) as (st1 & st2 & Hlock & Hread).
  exists {| storage := st2; params := prm;
            encryptedKeys := encryptedKeys ks'; cache := ∅ |}, st2.
  split; [|split; [done|split; [|done]]].
  - unfold finalizer, NewKeyStore. cbn [fst]. rewrite Hlock, Hread.
    rewrite decide_False by (by destruct js). by rewrite Hun.
  - intros k. by rewrite !elem_of_Keys.
Qed.
End Persistence.

(** Persistence on the empty store over a file, with the toy document format
    that round-trips. *)
Lemma ImportKey_then_reopen_witness :
  ∃ ks',
    ImportKey (xcrypto := toy_XCrypto) (iden3 := toy_Iden3Crypto)
      (json := toy_Json_digits) ks_file secret32 pass_abc rnd56
    = (Return (Ok pk_secret32), ks', [])
    ∧ ∃ ks2 st2,
        NewKeyStore (json := toy_Json_digits) (finalizer ks' ∅).1
          StandardKeyStoreParams = (Ok ks2, st2)
        ∧ encryptedKeys ks2 = encryptedKeys ks'
        ∧ (∀ k, k ∈ Keys ks2 ↔ k ∈ Keys ks')
        ∧ cache ks2 = ∅
        ∧ params ks2 = StandardKeyStoreParams.
Proof.
  assert (Henc : EncryptData (xcrypto := toy_XCrypto) secret32 pass_abc
                   (ScryptN (params ks_file)) (ScryptP (params ks_file)) rnd56
                 = (Return (Ok toy_record), [])) by evaluate.
  pose proof (ImportKey_runs (xcrypto := toy_XCrypto) (iden3 := toy_Iden3Crypto)
                (json := toy_Json_digits) ks_file secret32 pass_abc rnd56 []
                toy_record _ _ Henc eq_refl eq_refl) as Hrun.
  eexists. split; [exact Hrun|].
  exact (ImportKey_then_reopen (xcrypto := toy_XCrypto)
           (iden3 := toy_Iden3Crypto) (json := toy_Json_digits)
           toy_Json_digits_roundtrip FileStorage_keeps
           _ _ _ _ _ _ _ ∅ StandardKeyStoreParams Hrun).
Defined.

(** ** [UnlockKey], [ExportKey] and the finalizer *)

Lemma finalizer_heap_lookup {S} {stg : Storage S} (ks : KeyStore S) (h : Heap) l :
  cache_typed ks h →
  (finalizer ks h).2 !! l
  = if decide (l ∈ (map_to_list (cache ks)).*2) then Some (zero 32) else h !! l.
Proof.
  intros Htyped. unfold finalizer. cbn [snd].
  apply clear_cells_lookup.
  intros sk (pk & Hpk)%elem_of_cache_cells. by apply Htyped with pk.
Qed.

Lemma UnlockKey_None {xcrypto : XCrypto} {S} (ks ks' : KeyStore S) pk pass h h' :
  UnlockKey ks pk pass h = (None, ks', h') →
  ∃ encryptedKey skBuf,
    encryptedKeys ks !! pk = Some encryptedKey
    ∧ DecryptData encryptedKey pass = Ok skBuf
    ∧ ks' = set_cache ks (<[pk := fresh (dom h)]> (cache ks))
    ∧ h' = <[fresh (dom h) := array_copy (zero 32) skBuf]> h
    ∧ h !! fresh (dom h) = None.
Proof.
  unfold UnlockKey.
  destruct (encryptedKeys ks !! pk) as [rec|]; [|done].
  destruct (DecryptData rec pass) as [skBuf|e] eqn:Hdec; [|done].
  intros [= <- <-]. exists rec, skBuf. do 4 (split; [done|]).
  apply not_elem_of_dom. apply is_fresh.
Qed.

(** X11: [UnlockKey] changes nothing but the cache entry of its key and the
    heap cell it allocates: the records, the storage and the parameters
    stay, the other cache entries stay, no cell of the heap is overwritten
    (an earlier cell of the same key included), and a failed [UnlockKey]
    changes nothing at all. *)
Theorem UnlockKey_frame {xcrypto : XCrypto} {S : Type}
    (ks ks' : KeyStore S) (pk pass : bytes) (h h' : Heap) (err : option error) :
  UnlockKey ks pk pass h = (err, ks', h') →
  encryptedKeys ks' = encryptedKeys ks
  ∧ storage ks' = storage ks
  ∧ params ks' = params ks
  ∧ (∀ k, k ≠ pk → cache ks' !! k = cache ks !! k)
  ∧ (∀ k, is_Some (cache ks !! k) → is_Some (cache ks' !! k))
  ∧ (∀ l cell, h !! l = Some cell → h' !! l = Some cell)
  ∧ (err ≠ None → ks' = ks ∧ h' = h)
  ∧ (err = None → ∃ sk, cache ks' !! pk = Some sk ∧ h !! sk = None
                        ∧ is_Some (h' !! sk)).
Proof.
  unfold UnlockKey.
  destruct (encryptedKeys ks !! pk) as [rec|].
  2: { intros [= <- <- <-]. repeat split; done. }
  destruct (DecryptData rec pass) as [skBuf|e].
  2: { intros [= <- <- <-]. repeat split; done. }
  intros [= <- <- <-]. cbn [encryptedKeys storage params cache set_cache].
  assert (Hfresh : h !! fresh (dom h) = None).
  { apply not_elem_of_dom. apply is_fresh. }
  do 3 (split; [done|]).
  split; [intros k Hk; by rewrite lookup_insert_ne|].
  split.
  { intros k Hk. destruct (decide (pk = k)) as [->|Hne].
    - rewrite lookup_insert_eq. by eexists.
    - by rewrite lookup_insert_ne. }
  split.
  { intros l cell Hl. rewrite lookup_insert_ne; [done|]. congruence. }
  split; [done|]. intros _. exists (fresh (dom h)).
  rewrite !lookup_insert_eq. split; [done|]. split; [done | by eexists].
Qed.

Lemma UnlockKey_frame_witness :
  UnlockKey (xcrypto := toy_XCrypto) ks_odd_unlocked pk_A pass_abc heap_odd
  = (None, set_cache ks_odd {[ pk_A := fresh (dom heap_odd) ]},
     <[fresh (dom heap_odd) := short3 ++ zero 29]> heap_odd)
  ∧ <[fresh (dom heap_odd) := short3 ++ zero 29]> heap_odd !! 1%positive
    = Some (short3 ++ zero 29).
Proof.
  assert (Hrun : UnlockKey (xcrypto := toy_XCrypto)
                   ks_odd_unlocked pk_A pass_abc heap_odd
                 = (None, set_cache ks_odd {[ pk_A := fresh (dom heap_odd) ]},
                    <[fresh (dom heap_odd) := short3 ++ zero 29]> heap_odd))
    by evaluate.
  split; [exact Hrun|].
  destruct (UnlockKey_frame _ _ _ _ _ _ _ Hrun) as (_ & _ & _ & _ & _ & Hheap & _).
  apply Hheap. reflexivity.
Defined.

Section Disposal.
Context {xcrypto : XCrypto} {S : Type} {stg : Storage S}.

(** X12: Unlocking a key that is unlocked already puts a new cell in the cache
    and leaves the old one as it is: no cache entry points to the old cell
    any more, it still holds the secret key, and the finalizer, which
    clears the cells of the cache, does not clear it. *)
Theorem UnlockKey_again_leaves_old_cell (ks ks' : KeyStore S) (pk pass : bytes)
    (h h' : Heap) (old : loc) (cell : bytes) :
  cache_typed ks h →
  cache ks !! pk = Some old →
  (∀ k, cache ks !! k = Some old → k = pk) →
  h !! old = Some cell →
  UnlockKey ks pk pass h = (None, ks', h') →
  (∀ k, cache ks' !! k ≠ Some old)
  ∧ h' !! old = Some cell
  ∧ (finalizer ks' h').2 !! old = Some cell
  ∧ ∃ sk, cache ks' !! pk = Some sk ∧ sk ≠ old
          ∧ (finalizer ks' h').2 !! sk = Some (zero 32).
Proof.
  intros Htyped Hpk Honly Hcell Hrun.
  pose proof (UnlockKey_cache_typed _ _ _ _ _ _ _ Htyped Hrun) as Htyped'.
  unfold UnlockKey in Hrun.
  destruct (encryptedKeys ks !! pk) as [rec|]; [|done].
  destruct (DecryptData rec pass) as [skBuf|e]; [|done].
  injection Hrun as <- <-.
  assert (Hfresh : fresh (dom h) ≠ old).
  { intros Heq. apply (is_fresh (dom h)). rewrite Heq.
    apply elem_of_dom. by eexists. }
  assert (Hgone : ∀ k, cache (set_cache ks (<[pk:=fresh (dom h)]> (cache ks))) !! k
                       ≠ Some old).
  { intros k. cbn [cache set_cache]. destruct (decide (pk = k)) as [->|Hne].
    - rewrite lookup_insert_eq. congruence.
    - rewrite lookup_insert_ne by done. intros Hk. by apply Honly in Hk. }
  split; [exact Hgone|].
  assert (Hold : <[fresh (dom h) := array_copy (zero 32) skBuf]> h !! old
                 = Some cell) by (by rewrite lookup_insert_ne).
  split; [exact Hold|].
  split.
  - rewrite finalizer_heap_lookup by done.
    rewrite decide_False; [done|].
    intros (k & Hk)%elem_of_cache_cells. by apply (Hgone k).
  - exists (fresh (dom h)). cbn [cache set_cache].
    split; [apply lookup_insert_eq|]. split; [done|].
    rewrite finalizer_heap_lookup by done.
    rewrite decide_True; [done|].
    apply elem_of_cache_cells. exists pk. cbn [cache set_cache].
    apply lookup_insert_eq.
Qed.

(** X13: The pointer that [ExportKey] returns is the pointer in the cache: the
    caller's key and the cached key are one 32-byte cell, and the finalizer
    zeroes it under the caller too. *)
Theorem ExportKey_returns_cache_cell (ks ks' : KeyStore S) (pk pass : bytes)
    (h h' : Heap) (p : option loc) :
  cache_typed ks h →
  ExportKey ks pk pass h = (Ok p, ks', h') →
  ∃ sk cell,
    p = Some sk
    ∧ cache ks' !! pk = Some sk
    ∧ h' !! sk = Some cell
    ∧ length cell = 32%nat
    ∧ (finalizer ks' h').2 !! sk = Some (zero 32).
Proof.
  intros Htyped. unfold ExportKey.
  destruct (UnlockKey ks pk pass h) as [[[e|] ks1] h1] eqn:Hrun; [done|].
  intros [= <- <- <-].
  pose proof (UnlockKey_cache_typed _ _ _ _ _ _ _ Htyped Hrun) as Htyped'.
  apply UnlockKey_None in Hrun as (rec & skBuf & _ & _ & -> & -> & _).
  cbn [cache set_cache] in *.
  destruct (Htyped' pk (fresh (dom h))) as (cell & Hcell & Hlen);
    [apply lookup_insert_eq|].
  exists (fresh (dom h)), cell.
  split; [by rewrite lookup_insert_eq|].
  split; [by rewrite lookup_insert_eq|].
  do 2 (split; [done|]).
  rewrite finalizer_heap_lookup by done.
  rewrite decide_True; [done|]. apply elem_of_cache_cells. exists pk.
  cbn [cache set_cache]. apply lookup_insert_eq.
Qed.
End Disposal.

Lemma cache_typed_odd_unlocked : cache_typed ks_odd_unlocked heap_odd.
Proof.
  intros pk sk Hsk. unfold ks_odd_unlocked in Hsk. cbn [cache set_cache] in Hsk.
  apply lookup_singleton_Some in Hsk as [_ <-]. by exists (short3 ++ zero 29).
Qed.

(** On [ks_odd_unlocked]: after the second unlock of [pk_A], cell 1 still
    holds the key when the finalizer has run. *)
Lemma UnlockKey_again_leaves_old_cell_witness :
  UnlockKey (xcrypto := toy_XCrypto) ks_odd_unlocked pk_A pass_abc heap_odd
  = (None, set_cache ks_odd {[ pk_A := fresh (dom heap_odd) ]},
     <[fresh (dom heap_odd) := short3 ++ zero 29]> heap_odd)
  ∧ (finalizer (stg := MemStorage_Storage)
       (set_cache ks_odd {[ pk_A := fresh (dom heap_odd) ]})
       (<[fresh (dom heap_odd) := short3 ++ zero 29]> heap_odd)).2 !! 1%positive
    = Some (short3 ++ zero 29).
Proof.
  assert (Hrun : UnlockKey (xcrypto := toy_XCrypto)
                   ks_odd_unlocked pk_A pass_abc heap_odd
                 = (None, set_cache ks_odd {[ pk_A := fresh (dom heap_odd) ]},
                    <[fresh (dom heap_odd) := short3 ++ zero 29]> heap_odd))
    by evaluate.
  split; [exact Hrun|].
  refine (proj1 (proj2 (proj2
            (UnlockKey_again_leaves_old_cell (xcrypto := toy_XCrypto)
               (stg := MemStorage_Storage)
               _ _ _ _ _ _ 1%positive (short3 ++ zero 29)
               cache_typed_odd_unlocked _ _ _ Hrun)))).
  - reflexivity.
  - intros k Hk. unfold ks_odd_unlocked in Hk. cbn [cache set_cache] in Hk.
    by apply lookup_singleton_Some in Hk as [-> _].
  - reflexivity.
Defined.

Lemma ExportKey_returns_cache_cell_witness :
  ExportKey (xcrypto := toy_XCrypto) ks_odd pk_A pass_abc ∅
  = (Ok (Some (fresh (dom (∅ : Heap)))),
     set_cache ks_odd {[ pk_A := fresh (dom (∅ : Heap)) ]},
     {[ fresh (dom (∅ : Heap)) := short3 ++ zero 29 ]})
  ∧ ∃ sk cell,
      Some (fresh (dom (∅ : Heap))) = Some sk
      ∧ cache (set_cache ks_odd {[ pk_A := fresh (dom (∅ : Heap)) ]}) !! pk_A
        = Some sk
      ∧ ({[ fresh (dom (∅ : Heap)) := short3 ++ zero 29 ]} : Heap) !! sk = Some cell
      ∧ length cell = 32%nat
      ∧ (finalizer (stg := MemStorage_Storage)
           (set_cache ks_odd {[ pk_A := fresh (dom (∅ : Heap)) ]})
           {[ fresh (dom (∅ : Heap)) := short3 ++ zero 29 ]}).2 !! sk
        = Some (zero 32).
Proof.
  assert (Hrun : ExportKey (xcrypto := toy_XCrypto) ks_odd pk_A pass_abc ∅
                 = (Ok (Some (fresh (dom (∅ : Heap)))),
                    set_cache ks_odd {[ pk_A := fresh (dom (∅ : Heap)) ]},
                    {[ fresh (dom (∅ : Heap)) := short3 ++ zero 29 ]}))
    by evaluate.
  split; [exact Hrun|].
  apply (ExportKey_returns_cache_cell (xcrypto := toy_XCrypto)
           (stg := MemStorage_Storage) ks_odd _ pk_A pass_abc ∅ _ _);
    [|exact Hrun].
  intros pk sk Hsk. unfold ks_odd in Hsk. cbn [cache] in Hsk.
  by rewrite lookup_empty in Hsk.
Defined.

(** ** From [ImportKey] to [ExportKey], [Sign] and [VerifySignature] *)

Lemma toy_Open_Seal_contract : ∀ message nonce key : bytes,
  length nonce = 24%nat → length key = 32%nat →
  toy_Open [] (toy_Seal [] message nonce key) nonce key = Some message.
Proof. intros. apply toy_Open_Seal. Qed.

Section UseOfKeys.
Context {xcrypto : XCrypto} {iden3 : Iden3Crypto} {json : Json}.
Context {S : Type} {stg : Storage S}.

(** X14: Signing needs an unlocked key whatever the store holds: right after
    its import a key is not in the cache, and [Sign] and [SignElem] return
    the error of a key that is not unlocked. *)
Theorem ImportKey_does_not_unlock (ks ks' : KeyStore S) (sk pass : bytes)
    (rnd rnd' : RandReader) (pk : bytes) :
  ImportKey ks sk pass rnd = (Return (Ok pk), ks', rnd') →
  cache ks !! pk = None →
  ∀ (h : Heap),
    (∀ msg : Z, SignElem ks' pk msg h
       = Return (Err (Errorf "Public key not found in the cache.  Is it unlocked?")))
    ∧ (∀ msg : bytes, Sign ks' pk msg h
       = Return (Err (Errorf "Public key not found in the cache.  Is it unlocked?"))).
Proof.
  intros (rec & js & _ & _ & _ & _ & _ & Hcache & _)%ImportKey_Ok Hnone h.
  split; intros msg; unfold Sign, SignElem; by rewrite Hcache, Hnone.
Qed.

(** The contract of secretbox: a box opens, under the nonce and key that
    sealed it, to the sealed message. *)
Hypothesis secretbox_Open_Seal : ∀ message nonce key : bytes,
  length nonce = 24%nat → length key = 32%nat →
  secretbox_Open [] (secretbox_Seal [] message nonce key) nonce key = Some message.

Lemma EncryptData_then_DecryptData D P N Pp rnd rnd' rec :
  EncryptData D P N Pp rnd = (Return (Ok rec), rnd') →
  DecryptData rec P = Ok D.
Proof.
  intros (dk & Hsalt & Hnonce & HN & HP & Hkey & Hbox & _)%EncryptData_Ok.
  apply DecryptData_Ok. exists dk. rewrite HN, HP. split; [done|].
  rewrite Hbox.
  rewrite (array_copy_same_length (zero 24) (Nonce rec))
    by (by rewrite length_zero).
  apply secretbox_Open_Seal; [done|].
  by rewrite length_array_copy, length_zero.
Qed.

Lemma ImportKey_then_UnlockKey (ks ks1 : KeyStore S) sk pass rnd rnd1 pk h :
  length sk = 32%nat →
  ImportKey ks sk pass rnd = (Return (Ok pk), ks1, rnd1) →
  UnlockKey ks1 pk pass h
  = (None, set_cache ks1 (<[pk := fresh (dom h)]> (cache ks1)),
     <[fresh (dom h) := sk]> h).
Proof.
  intros Hlen (rec & js & Henc & _ & Hmap & _)%ImportKey_Ok.
  apply EncryptData_then_DecryptData in Henc.
  rewrite (UnlockKey_Ok ks1 pk pass h rec sk); [|by rewrite Hmap, lookup_insert_eq|done].
  by rewrite array_copy_same_length by (by rewrite length_zero).
Qed.

(** X15: Round trip of a secret key: a 32-byte key that was imported under a
    passphrase is exported under the same passphrase (whatever else the
    heap and the cache hold), and the exported cell holds exactly the
    imported bytes. *)
Theorem ImportKey_ExportKey_roundtrip (ks ks1 : KeyStore S) (sk pass : bytes)
    (rnd rnd1 : RandReader) (pk : bytes) (h : Heap) :
  length sk = 32%nat →
  ImportKey ks sk pass rnd = (Return (Ok pk), ks1, rnd1) →
  ∃ p ks2 h2,
    ExportKey ks1 pk pass h = (Ok (Some p), ks2, h2)
    ∧ h2 !! p = Some sk
    ∧ encryptedKeys ks2 = encryptedKeys ks1
    ∧ storage ks2 = storage ks1.
Proof.
  intros Hlen Himp.
  exists (fresh (dom h)), (set_cache ks1 (<[pk := fresh (dom h)]> (cache ks1))),
         (<[fresh (dom h) := sk]> h).
  unfold ExportKey. rewrite (ImportKey_then_UnlockKey ks ks1 sk pass rnd rnd1) by done.
  cbn [cache set_cache]. rewrite !lookup_insert_eq. done.
Qed.

(** The contract of babyjub: the public key and the signatures of a
    private key survive compression, and a signature verifies under the
    public key of the private key that made it. *)
Hypothesis Point_Decompress_Compress : ∀ sk : bytes,
  length sk = 32%nat →
  Point_Decompress (Point_Compress (PrivKey_Pub sk)) = Ok (PrivKey_Pub sk).
Hypothesis Signature_Decompress_Compress : ∀ (sk : bytes) (msg : Z),
  length sk = 32%nat →
  Signature_Decompress (Signature_Compress (PrivKey_SignMimc7 sk msg))
  = Ok (PrivKey_SignMimc7 sk msg).
Hypothesis VerifyMimc7_SignMimc7 : ∀ (sk : bytes) (msg : Z),
  length sk = 32%nat →
  PubKey_VerifyMimc7 (PrivKey_Pub sk) msg (PrivKey_SignMimc7 sk msg) = true.

(** X16: Signature correctness, end to end: a 32-byte key is imported and
    unlocked with its passphrase; then [Sign] returns a signature of any
    message under the returned public key, and [VerifySignature] accepts
    it for that message: both hash the message with [mimc7HashBytes]. *)
Theorem Sign_then_VerifySignature (ks ks1 : KeyStore S) (sk pass : bytes)
    (rnd rnd1 : RandReader) (pk : bytes) (h : Heap) (msg : bytes) :
  length sk = 32%nat →
  ImportKey ks sk pass rnd = (Return (Ok pk), ks1, rnd1) →
  ∃ ks2 h2 sig,
    UnlockKey ks1 pk pass h = (None, ks2, h2)
    ∧ Sign ks2 pk msg h2 = Return (Ok sig)
    ∧ VerifySignature pk msg sig = (true, None).
Proof.
  intros Hlen Himp.
  pose proof (ImportKey_then_UnlockKey ks ks1 sk pass rnd rnd1 pk h Hlen Himp)
    as Hunlock.
  apply ImportKey_Ok in Himp as (rec & js & _ & -> & _).
  eexists _, _, _. split; [exact Hunlock|].
  unfold Sign, SignElem. cbn [cache set_cache]. rewrite !lookup_insert_eq.
  split; [reflexivity|].
  unfold VerifySignature, VerifySignatureElem.
  rewrite Point_Decompress_Compress, Signature_Decompress_Compress by done.
  by rewrite VerifyMimc7_SignMimc7.
Qed.
End UseOfKeys.

Lemma ImportKey_ks_file :
  ImportKey (xcrypto := toy_XCrypto) (iden3 := toy_Iden3Crypto) (json := toy_Json)
    ks_file secret32 pass_abc rnd56
  = (Return (Ok pk_secret32), ks_file_imported, []).
Proof. evaluate. Qed.

Lemma ImportKey_does_not_unlock_witness :
  ImportKey (xcrypto := toy_XCrypto) (iden3 := toy_Iden3Crypto) (json := toy_Json)
    ks_file secret32 pass_abc rnd56
  = (Return (Ok pk_secret32), ks_file_imported, [])
  ∧ Sign (iden3 := toy_Iden3Crypto) ks_file_imported pk_secret32 pass_abc ∅
    = Return (Err (Errorf "Public key not found in the cache.  Is it unlocked?")).
Proof.
  split; [exact ImportKey_ks_file|].
  apply (ImportKey_does_not_unlock (xcrypto := toy_XCrypto)
           (iden3 := toy_Iden3Crypto) (json := toy_Json)
           ks_file ks_file_imported secret32 pass_abc rnd56 [] pk_secret32
           ImportKey_ks_file eq_refl ∅).
Defined.

Lemma ImportKey_ExportKey_roundtrip_witness :
  ImportKey (xcrypto := toy_XCrypto) (iden3 := toy_Iden3Crypto) (json := toy_Json)
    ks_file secret32 pass_abc rnd56
  = (Return (Ok pk_secret32), ks_file_imported, [])
  ∧ ∃ p ks2 h2,
      ExportKey (xcrypto := toy_XCrypto) ks_file_imported pk_secret32 pass_abc
        heap_odd = (Ok (Some p), ks2, h2)
      ∧ h2 !! p = Some secret32
      ∧ encryptedKeys ks2 = encryptedKeys ks_file_imported
      ∧ storage ks2 = storage ks_file_imported.
Proof.
  split; [exact ImportKey_ks_file|].
  exact (ImportKey_ExportKey_roundtrip (xcrypto := toy_XCrypto)
           (iden3 := toy_Iden3Crypto) (json := toy_Json)
           toy_Open_Seal_contract
           ks_file ks_file_imported secret32 pass_abc rnd56 [] pk_secret32
           heap_odd eq_refl ImportKey_ks_file).
Defined.

(** The toy curve meets the contract of babyjub on 32-byte keys. *)
Lemma toy_Point_Decompress_Compress (sk : bytes) :
  length sk = 32%nat →
  @Point_Decompress toy_Iden3Crypto
    (@Point_Compress toy_Iden3Crypto (@PrivKey_Pub toy_Iden3Crypto sk))
  = Ok (@PrivKey_Pub toy_Iden3Crypto sk).
Proof.
  intros Hlen. cbn. unfold toy_Decompress.
  by rewrite decide_True by (by rewrite length_reverse).
Qed.

Lemma toy_Signature_Decompress_Compress (sk : bytes) (msg : Z) :
  length sk = 32%nat →
  @Signature_Decompress toy_Iden3Crypto
    (@Signature_Compress toy_Iden3Crypto (@PrivKey_SignMimc7 toy_Iden3Crypto sk msg))
  = Ok (@PrivKey_SignMimc7 toy_Iden3Crypto sk msg).
Proof.
  intros Hlen. cbn. unfold toy_Decompress, toy_Sign.
  rewrite decide_True; [done|].
  rewrite length_app, length_reverse, length_replicate. lia.
Qed.

Lemma toy_VerifyMimc7_SignMimc7 (sk : bytes) (msg : Z) :
  length sk = 32%nat →
  @PubKey_VerifyMimc7 toy_Iden3Crypto
    (@PrivKey_Pub toy_Iden3Crypto sk) msg (@PrivKey_SignMimc7 toy_Iden3Crypto sk msg)
  = true.
Proof.
  intros _. cbn [PubKey_VerifyMimc7 PrivKey_Pub PrivKey_SignMimc7 toy_Iden3Crypto].
  apply bool_decide_eq_true. by rewrite reverse_involutive.
Qed.

Lemma Sign_then_VerifySignature_witness :
  ImportKey (xcrypto := toy_XCrypto) (iden3 := toy_Iden3Crypto) (json := toy_Json)
    ks_file secret32 pass_abc rnd56
  = (Return (Ok pk_secret32), ks_file_imported, [])
  ∧ ∃ ks2 h2 sig,
      UnlockKey (xcrypto := toy_XCrypto) ks_file_imported pk_secret32 pass_abc ∅
      = (None, ks2, h2)
      ∧ Sign (iden3 := toy_Iden3Crypto) ks2 pk_secret32 msg32 h2 = Return (Ok sig)
      ∧ VerifySignature (iden3 := toy_Iden3Crypto) pk_secret32 msg32 sig
        = (true, None).
Proof.
  split; [exact ImportKey_ks_file|].
  exact (Sign_then_VerifySignature (xcrypto := toy_XCrypto)
           (iden3 := toy_Iden3Crypto) (json := toy_Json)
           toy_Open_Seal_contract toy_Point_Decompress_Compress
           toy_Signature_Decompress_Compress toy_VerifyMimc7_SignMimc7
           ks_file ks_file_imported secret32 pass_abc rnd56 [] pk_secret32
           ∅ msg32 eq_refl ImportKey_ks_file).
Defined.

(** ** [NewKey] *)

Section NewKeyFacts.
Context {xcrypto : XCrypto} {iden3 : Iden3Crypto} {json : Json}.
Context {rand : BabyJubRand} {S : Type} {stg : Storage S}.

Hypothesis secretbox_Open_Seal : ∀ message nonce key : bytes,
  length nonce = 24%nat → length key = 32%nat →
  secretbox_Open [] (secretbox_Seal [] message nonce key) nonce key = Some message.

(** A [PrivKey] is an array of 32 bytes. *)
Hypothesis NewRandPrivKey_length : ∀ rnd sk rnd',
  NewRandPrivKey rnd = (Return sk, rnd') → length sk = 32%nat.

(** X17: The way of the tests: a key made by [NewKey] is listed by [Keys], and
    [UnlockKey] with the passphrase given to [NewKey] returns no error and
    caches exactly the generated key. *)
Theorem NewKey_then_UnlockKey (ks ks1 : KeyStore S) (pass : bytes)
    (rnd rnd1 : RandReader) (kOp : bytes) (h : Heap) :
  NewKey ks pass rnd = (Return (Ok kOp), ks1, rnd1) →
  ∃ sk rnd0 ks2 h2 p,
    NewRandPrivKey rnd = (Return sk, rnd0)
    ∧ kOp = Point_Compress (PrivKey_Pub sk)
    ∧ kOp ∈ Keys ks1
    ∧ UnlockKey ks1 kOp pass h = (None, ks2, h2)
    ∧ cache ks2 !! kOp = Some p
    ∧ h2 !! p = Some sk.
Proof.
  unfold NewKey.
  destruct (NewRandPrivKey rnd) as [[sk|msg] rnd0] eqn:Hgen; [|done].
  intros Himp.
  pose proof (NewRandPrivKey_length _ _ _ Hgen) as Hlen.
  pose proof (ImportKey_then_UnlockKey secretbox_Open_Seal
                ks ks1 sk pass rnd0 rnd1 kOp h Hlen Himp) as Hunlock.
  apply ImportKey_Ok in Himp as (rec & js & _ & Hk & Hmap & _).
  exists sk, rnd0. eexists _, _, (fresh (dom h)).
  split; [done|]. split; [done|].
  split; [apply elem_of_Keys; rewrite Hmap, lookup_insert_eq; by eexists|].
  split; [exact Hunlock|]. cbn [cache set_cache].
  by rewrite !lookup_insert_eq.
Qed.
End NewKeyFacts.

Lemma toy_NewRandPrivKey_length rnd sk rnd' :
  NewRandPrivKey (BabyJubRand := toy_BabyJubRand) rnd = (Return sk, rnd') →
  length sk = 32%nat.
Proof.
  cbn. destruct (io_ReadFull rnd 32) as [[k r]|] eqn:Hread; [|done].
  intros [= <- <-]. by apply io_ReadFull_Some in Hread as [? _].
Qed.

(** The store of the tests: the empty store in memory with the light
    parameters. *)
Lemma NewKey_then_UnlockKey_witness :
  NewKeyStore (json := toy_Json) (stg := MemStorage_Storage) []
    LightKeyStoreParams = (Ok ks_mem, [])
  ∧ NewKey (xcrypto := toy_XCrypto) (iden3 := toy_Iden3Crypto) (json := toy_Json)
      (rand := toy_BabyJubRand) ks_mem pass_abc rnd88
    = (Return (Ok pk_secret32), ks_mem_new, [])
  ∧ ∃ sk rnd0 ks2 h2 p,
      NewRandPrivKey (BabyJubRand := toy_BabyJubRand) rnd88 = (Return sk, rnd0)
      ∧ pk_secret32
        = @Point_Compress toy_Iden3Crypto (@PrivKey_Pub toy_Iden3Crypto sk)
      ∧ pk_secret32 ∈ Keys ks_mem_new
      ∧ UnlockKey (xcrypto := toy_XCrypto) ks_mem_new pk_secret32 pass_abc ∅
        = (None, ks2, h2)
      ∧ cache ks2 !! pk_secret32 = Some p
      ∧ h2 !! p = Some sk.
Proof.
  assert (Hnew : NewKey (xcrypto := toy_XCrypto) (iden3 := toy_Iden3Crypto)
                   (json := toy_Json) (rand := toy_BabyJubRand)
                   ks_mem pass_abc rnd88
                 = (Return (Ok pk_secret32), ks_mem_new, [])) by evaluate.
  split; [evaluate|]. split; [exact Hnew|].
  exact (NewKey_then_UnlockKey (xcrypto := toy_XCrypto)
           (iden3 := toy_Iden3Crypto) (json := toy_Json)
           (rand := toy_BabyJubRand)
           toy_Open_Seal_contract toy_NewRandPrivKey_length
           ks_mem ks_mem_new pass_abc rnd88 [] pk_secret32 ∅ Hnew).
Defined.

(** ** Opening and disposing of a file-backed store *)

Lemma NewKeyStore_Err {json : Json} {S} {stg : Storage S} (st st' : S) prm e :
  NewKeyStore st prm = (Err e, st') →
  Lock st = (Some e, st')
  ∨ ∃ st1, Lock st = (None, st1) ∧ st' = (Unlock (Read st1).2).2.
Proof.
  unfold NewKeyStore.
  destruct (Lock st) as [[e1|] st1]; [intros [= <- <-]; by left|].
  destruct (Read st1) as [r st2] eqn:Hread. intros Hrun. right. exists st1.
  split; [done|].
  destruct (match r with Ok b => _ | Err e => _ end) as [blob|e1];
    [|injection Hrun as _ <-; by rewrite Hread].
  destruct (if decide _ then _ else _) as [m|e1]; [done|].
  injection Hrun as _ <-. by rewrite Hread.
Qed.

Lemma FileStorage_Unlock_Lock (fs : FileStorage) :
  files (fsys fs) !! lock_path fs = None →
  (Unlock (Lock fs).2).2 = {| path := path fs; lock := false; fsys := fsys fs |}.
Proof.
  intros Habsent.
  cbn [Lock Unlock FileStorage_Storage].
  unfold FileStorage_Lock. rewrite Habsent. cbn [snd].
  unfold FileStorage_Unlock, os_Remove, lock_path.
  cbn [path fsys files space lock fst snd].
  fold (lock_path fs). rewrite lookup_insert_eq.
  rewrite delete_insert_id by done. by destruct fs as [? ? [? ?]].
Qed.

(** X18: [NewKeyStore] over a file never leaves its lock file behind: if no lock
    file was there, then after a failed open, and after an open followed by
    the finalizer, the storage and the file system are as before the
    open. *)
Theorem NewKeyStore_finalizer_restores {json : Json}
    (p : string) (fs0 : FileSystem) (prm : KeyStoreParams) :
  files fs0 !! (p +:+ ".lock") = None →
  (∀ ks st', NewKeyStore (NewFileStorage p fs0) prm = (Ok ks, st') →
     ∀ h, (finalizer ks h).1 = NewFileStorage p fs0)
  ∧ (∀ e st', NewKeyStore (NewFileStorage p fs0) prm = (Err e, st') →
       st' = NewFileStorage p fs0).
Proof.
  intros Habsent.
  pose proof (FileStorage_Unlock_Lock (NewFileStorage p fs0) Habsent) as Hrestore.
  split.
  - intros ks st' (_ & _ & Hst & st1 & Hlock & ->)%NewKeyStore_Ok h.
    unfold finalizer. cbn [fst]. rewrite Hst.
    injection Hlock as <-. exact Hrestore.
  - intros e st' [Hlock | (st1 & Hlock & ->)]%NewKeyStore_Err; [done|].
    injection Hlock as <-. exact Hrestore.
Qed.

Lemma NewKeyStore_finalizer_restores_witness :
  (∃ ks st',
     NewKeyStore (json := toy_Json) (NewFileStorage "ks.json" fsys_empty)
       LightKeyStoreParams = (Ok ks, st')
     ∧ lock st' = true
     ∧ (finalizer ks ∅).1 = NewFileStorage "ks.json" fsys_empty)
  ∧ NewKeyStore (json := toy_Json) (NewFileStorage "ks.json" fsys_garbage)
      LightKeyStoreParams
    = (Err (ErrExternal "json" "invalid character"),
       NewFileStorage "ks.json" fsys_garbage).
Proof.
  split.
  - eexists _, _. split; [evaluate|]. split; [reflexivity|].
    refine (proj1 (NewKeyStore_finalizer_restores (json := toy_Json)
                     "ks.json" fsys_empty LightKeyStoreParams _) _ _ _ ∅);
      evaluate.
  - assert (Hst : ∀ st',
              NewKeyStore (json := toy_Json) (NewFileStorage "ks.json" fsys_garbage)
                LightKeyStoreParams
              = (Err (ErrExternal "json" "invalid character"), st') →
              st' = NewFileStorage "ks.json" fsys_garbage).
    { apply (NewKeyStore_finalizer_restores (json := toy_Json)
               "ks.json" fsys_garbage LightKeyStoreParams). evaluate. }
    evaluate.
Defined.

(** ** Entropy and nonces *)

(** X19: Every successful [EncryptData] draws its own 32-byte salt and 24-byte
    nonce from the entropy source, in this order, and nothing else: two
    calls in a row use four disjoint stretches of the stream. *)
Theorem EncryptData_fresh_entropy {xcrypto : XCrypto}
    (D1 P1 D2 P2 : bytes) (N1 Pp1 N2 Pp2 : Z)
    (rnd rnd1 rnd2 : RandReader) (r1 r2 : EncryptedData) :
  EncryptData D1 P1 N1 Pp1 rnd = (Return (Ok r1), rnd1) →
  EncryptData D2 P2 N2 Pp2 rnd1 = (Return (Ok r2), rnd2) →
  rnd = Salt r1 ++ Nonce r1 ++ Salt r2 ++ Nonce r2 ++ rnd2
  ∧ length (Salt r1) = 32%nat ∧ length (Nonce r1) = 24%nat
  ∧ length (Salt r2) = 32%nat ∧ length (Nonce r2) = 24%nat.
Proof.
  intros (dk1 & Hs1 & Hn1 & _ & _ & _ & _ & ->)%EncryptData_Ok.
  intros (dk2 & Hs2 & Hn2 & _ & _ & _ & _ & ->)%EncryptData_Ok.
  done.
Qed.

Lemma EncryptData_fresh_entropy_witness :
  EncryptData (xcrypto := toy_XCrypto) secret32 pass_abc
    LightScryptN LightScryptP rnd112
  = (Return (Ok toy_record), bytes_of_nats (seq 156 56))
  ∧ ∃ r2,
      EncryptData (xcrypto := toy_XCrypto) short3 pass_abd
        StandardScryptN StandardScryptP (bytes_of_nats (seq 156 56))
      = (Return (Ok r2), [])
      ∧ rnd112 = Salt toy_record ++ Nonce toy_record ++ Salt r2 ++ Nonce r2 ++ [].
Proof.
  assert (H1 : EncryptData (xcrypto := toy_XCrypto) secret32 pass_abc
                 LightScryptN LightScryptP rnd112
               = (Return (Ok toy_record), bytes_of_nats (seq 156 56)))
    by evaluate.
  split; [exact H1|]. eexists. split; [evaluate|].
  match goal with
  | |- _ = _ ++ _ ++ Salt ?r2 ++ _ =>
    assert (H2 : EncryptData (xcrypto := toy_XCrypto) short3 pass_abd
                   StandardScryptN StandardScryptP (bytes_of_nats (seq 156 56))
                 = (Return (Ok r2), [])) by evaluate
  end.
  exact (proj1 (EncryptData_fresh_entropy _ _ _ _ _ _ _ _ _ _ _ _ _ H1 H2)).
Defined.

(** X20: [DecryptData] reads the first 24 bytes of the stored nonce and nothing
    beyond: bytes appended to the nonce of a record change nothing in what
    [DecryptData] returns, for any passphrase. *)
Theorem DecryptData_ignores_nonce_tail {xcrypto : XCrypto}
    (encData : EncryptedData) (extra pass : bytes) :
  (24 ≤ length (Nonce encData))%nat →
  DecryptData (with_Nonce encData (Nonce encData ++ extra)) pass
  = DecryptData encData pass.
Proof.
  intros Hlen. unfold DecryptData, with_Nonce.
  cbn [Salt encScryptN encScryptP Nonce encEncryptedData].
  rewrite !array_copy_zero_long by (rewrite ?length_app; lia).
  by rewrite take_app_le by lia.
Qed.

Lemma DecryptData_ignores_nonce_tail_witness :
  DecryptData (xcrypto := toy_XCrypto)
    (with_Nonce toy_record (Nonce toy_record ++ [x2a; x2a])) pass_abc
  = Ok secret32.
Proof.
  rewrite (DecryptData_ignores_nonce_tail (xcrypto := toy_XCrypto)
             toy_record [x2a; x2a] pass_abc) by (vm_compute; lia).
  evaluate.
Defined.

(** ** The elements of [mimc7HashBytes] *)

(** X21: [mimc7HashBytes] hands [mimc7.Hash] one element for every started block
    of 31 bytes (none for the empty message), and the elements of the full
    blocks are those of the consecutive 31-byte blocks. *)
Theorem mimc7HashBytes_msgElems_full_blocks (msg : bytes) :
  length (mimc7HashBytes_msgElems msg) = ((length msg + 30) / 31)%nat
  ∧ take (length msg / 31) (mimc7HashBytes_msgElems msg)
    = take (length msg / 31) (documented_msgElems msg)
  ∧ (msg = [] → mimc7HashBytes_msgElems msg = []).
Proof.
  rewrite mimc7HashBytes_msgElems_eq.
  pose proof (Nat.div_mod_eq (length msg) 31) as Hdm.
  assert (Hmod : (length msg `mod` 31 < 31)%nat)
    by (apply Nat.mod_upper_bound; lia).
  set (q := (length msg / 31)%nat) in *.
  set (f := λ i, SetBigIntFromLEBytes (slice msg (31 * i) (31 * (i + 1)))).
  assert (Hcount : ((length msg + 30) / 31
                    = q + if decide (length msg `mod` 31 ≠ 0)%nat then 1 else 0)%nat).
  { destruct (decide (length msg `mod` 31 ≠ 0)%nat).
    - symmetry. apply (Nat.div_unique _ 31 _ (length msg `mod` 31 - 1)); lia.
    - symmetry. apply (Nat.div_unique _ 31 _ 30); lia. }
  split; [|split].
  - rewrite length_app, length_map, length_seq, Hcount.
    by destruct (decide (length msg `mod` 31 ≠ 0)%nat).
  - unfold documented_msgElems, blocks31.
    rewrite map_map, Hcount, seq_app, map_app.
    rewrite !take_app_le by (rewrite length_map, length_seq; lia).
    rewrite !firstn_all2 by (rewrite length_map, length_seq; lia).
    apply map_ext_in. intros i Hi%in_seq. unfold f.
    rewrite Nat.min_l by lia. done.
  - intros ->. reflexivity.
Qed.

(** A 3-byte message, and a message of two full blocks. *)
Lemma mimc7HashBytes_msgElems_documented_witness :
  mimc7HashBytes_msgElems pass_abc = documented_msgElems pass_abc
  ∧ mimc7HashBytes_msgElems (msg32 ++ take 30 msg32)
    = documented_msgElems (msg32 ++ take 30 msg32).
Proof.
  split; apply mimc7HashBytes_msgElems_documented.
  - left. vm_compute. lia.
  - right. reflexivity.
Defined.
